(** * Orbit integrator of the quadrupoles repository (src/physics.ts)

    A shallow embedding of [samplePlanarOrbit], [calculateOrbit] and
    [planetRK2], and the properties of the specification proved about it;
    then the controls of UserInterface.tsx and App.tsx and the computations
    of Canvas.tsx, with the properties their code shows.

    Modelling conventions.
    - A JavaScript [number] that holds a measured quantity is a real number
      ([R]): arithmetic is exact, [0.1] is one tenth.  The IEEE-754 rounding,
      the infinities and NaN of the running program are outside the model;
      [x / 0] is the total division of [R].  A property whose truth in the
      program depends on a quotient therefore carries the hypothesis that
      the divisor is not 0: [point_defined] for the radii of the
      integrator, [1 <= resolution] for the angles of the canvas, a
      position off the origin for the rescaling of [updateParam].
    - A [number] that only ever holds a whole count ([numPoints], loop
      indices, [num], [error]) is a [nat].
    - A JavaScript array is a list of optional entries ([None] is a hole,
      that is an index whose read gives [undefined]); a write past the end
      extends the array with holes, as JavaScript does.
    - A thrown exception is [None] in the [option] monad: [calculateOrbit]
      catches every exception of its [try] block and returns the fallback.
    - [planetRK2] mutates the arrays of its caller; the model threads them
      through as a [Store] and returns the updated store with the result. *)

From Stdlib Require Import Reals Lra Lia List ZArith Bool Arith.
Import ListNotations.

Local Open Scope R_scope.

(** ** types.ts *)

Record Vec3 : Type := mkVec3 { x : R; y : R; z : R }.

(** ** JavaScript arrays *)

Definition Arr (A : Type) : Type := list (option A).

(** [a[i]] as an r-value: [None] stands for [undefined] (a hole or an index
    past the end). *)
Definition aget {A : Type} (a : Arr A) (i : nat) : option A :=
  match nth_error a i with
  | Some o => o
  | None => None
  end.

(** [a[i] = o]: replaces the entry, or extends the array with holes up to
    index [i]. *)
Fixpoint aset {A : Type} (a : Arr A) (i : nat) (o : option A) : Arr A :=
  match i, a with
  | O, [] => [o]
  | O, _ :: a' => o :: a'
  | S i', [] => None :: aset [] i' o
  | S i', h :: a' => h :: aset a' i' o
  end.

(** [a.push(v)] *)
Definition push {A : Type} (a : Arr A) (v : A) : Arr A := a ++ [Some v].

(** [a.slice(0, k)] *)
Definition slice0 {A : Type} (a : Arr A) (k : nat) : Arr A := firstn k a.

(** The largest length [new Array(n)] accepts: 2^32 - 1. *)
Definition max_array_length : Z := 4294967295.

(** [new Array(n)] for a whole number [n]: [n] holes, or a RangeError. *)
Definition new_Array (A : Type) (n : nat) : option (Arr A) :=
  if (Z.of_nat n <=? max_array_length)%Z then Some (repeat None n) else None.

(** ** Numbers *)

Definition Rltb (a b : R) : bool := if Rlt_dec a b then true else false.
Definition Rleb (a b : R) : bool := if Rle_dec a b then true else false.

(** [Math.round]: the nearest integer, ties towards plus infinity. *)
Definition Math_round (a : R) : Z := Int_part (a + 0.5).

(** Sequencing of a computation that may throw. *)
Definition bind {A B : Type} (m : option A) (f : A -> option B) : option B :=
  match m with
  | Some a => f a
  | None => None
  end.

Notation "'do' p <- m ; f" := (bind m (fun p => f))
  (at level 10, p pattern, m at level 100, f at level 200).

(** A [for] loop over the indices [idx]; the body returns the new state and
    whether it executed [break]. *)
Fixpoint for_break {S : Type} (body : nat -> S -> option (S * bool))
    (idx : list nat) (s : S) : option S :=
  match idx with
  | [] => Some s
  | i :: rest =>
      match body i s with
      | None => None
      | Some (s', true) => Some s'
      | Some (s', false) => for_break body rest s'
      end
  end.

(** ** physics.ts: samplePlanarOrbit *)

Definition samplePlanarOrbit (samples : nat) (radius : R) : Arr Vec3 :=
  fold_left
    (fun out i =>
       let t := INR i / INR samples * 2 * PI in
       let r := radius in
       push out {| x := r * cos t; y := r * sin t; z := 0 |})
    (seq 0 samples) [].

(** ** physics.ts: planetRK2 *)

(** The three arrays [planetRK2] writes to. *)
Record Store : Type := mkStore { t : Arr R; pos : Arr Vec3; vel : Arr Vec3 }.

(** The returned object [{ num, error }]. *)
Record Result : Type := mkResult { num : nat; error : nat }.

Definition sq (u : R) : R := u * u.
Definition hypot3 (vec : Vec3) : R :=
  sqrt (x vec * x vec + y vec * y vec + z vec * z vec).

(** Lines 115-160: the positions and velocities written to index [i + 1]
    from the entries [p], [v] at index [i]. *)
Definition rk2_step (radius GM dt : R) (p v : Vec3) : Vec3 * Vec3 :=
  let r := hypot3 p in
  let xpri := x p + (dt * x v) / 2.0 in
  let ypri := y p + (dt * y v) / 2.0 in
  let zpri := z p + (dt * z v) / 2.0 in
  let r2 := r * r in
  let r3 := r2 * r in
  let r5 := r3 * r2 in
  let r7 := r5 * r2 in
  let m := GM / r3 in
  let o := -3.75 * ((GM * radius * radius) / r7) * sq (z p) in
  let p' := 0.75 * ((GM * radius * radius) / r5) in
  let q := 1.5 * ((GM * radius * radius) / r5) in
  let vxpri := x v - (dt * x p * (m + o + p')) / 2.0 in
  let vypri := y v - (dt * y p * (m + o + p')) / 2.0 in
  let vzpri := z v - (dt * z p * (m + o + p' + q)) / 2.0 in
  let rpri := hypot3 {| x := xpri; y := ypri; z := zpri |} in
  let pos1 := {| x := x p + dt * vxpri;
                 y := y p + dt * vypri;
                 z := z p + dt * vzpri |} in
  let rpri2 := rpri * rpri in
  let rpri3 := rpri2 * rpri in
  let rpri5 := rpri3 * rpri2 in
  let rpri7 := rpri5 * rpri2 in
  let mpri := GM / rpri3 in
  let opri := -3.75 * ((GM * radius * radius) / rpri7) * sq zpri in
  let ppri := 0.75 * ((GM * radius * radius) / rpri5) in
  let qpri := 1.5 * ((GM * radius * radius) / rpri5) in
  let vel1 := {| x := x v - dt * xpri * (mpri + opri + ppri);
                 y := y v - dt * ypri * (mpri + opri + ppri);
                 z := z v - dt * zpri * (mpri + opri + ppri + qpri) |} in
  (pos1, vel1).

(** [t[j] + dt] where [t[j]] may be [undefined]: the sum is then NaN, which
    the model writes back as an entry without a real value. *)
Definition advance (dt : R) (tj : option R) : option R :=
  option_map (fun a => a + dt) tj.

(** Lines 168-174, one iteration of the freezing loop started at index [i]. *)
Definition freeze_body (i : nat) (dt : R) (j : nat) (s : Store)
    : option (Store * bool) :=
  let i1 := (i + 1)%nat in
  let j1 := (j + 1)%nat in
  do pi <- aget (pos s) i;
  let pos' := aset (pos s) j1 (Some {| x := x pi; y := y pi; z := z pi |}) in
  let vel' := aset (vel s) j1 (Some {| x := 0.0; y := 0.0; z := 0.0 |}) in
  let t' := if (i1 <? j1)%nat then aset (t s) j1 (advance dt (aget (t s) j))
            else t s in
  Some ({| t := t'; pos := pos'; vel := vel' |}, false).

(** Lines 109-181, one iteration of the main loop; the state is the store
    with the local variables [num] and [error]. *)
Definition rk2_body (n : nat) (radius GM dt : R) (i : nat)
    (s : Store * Result) : option ((Store * Result) * bool) :=
  let '(st, res) := s in
  let i1 := (i + 1)%nat in
  let t' := aset (t st) i1 (advance dt (aget (t st) i)) in
  do pi <- aget (pos st) i;
  let r := hypot3 pi in
  do vi <- aget (vel st) i;
  let '(pos1, vel1) := rk2_step radius GM dt pi vi in
  let st1 := {| t := t';
                pos := aset (pos st) i1 (Some pos1);
                vel := aset (vel st) i1 (Some vel1) |} in
  if Rltb r radius then
    do st2 <- for_break (freeze_body i dt) (seq i (n - 1 - i)) st1;
    Some ((st2, {| num := i; error := 1 |}), true)
  else
    Some ((st1, {| num := i1;
                   error := if (i =? n - 2)%nat then 0%nat else error res |}),
          false).

Definition planetRK2 (n num0 : nat) (radius GM dt : R)
    (t0 : Arr R) (pos0 vel0 : Arr Vec3) (error0 : nat)
    : option (Store * Result) :=
  let error1 := 0%nat in
  if (n <=? 1)%nat then
    Some ({| t := t0; pos := pos0; vel := vel0 |}, {| num := 0; error := 1 |})
  else
    do (st, res) <- for_break (rk2_body n radius GM dt) (seq 0 (n - 1))
                       ({| t := t0; pos := pos0; vel := vel0 |},
                        {| num := num0; error := error1 |});
    let num1 := if (2 <=? n)%nat && (error res =? 0)%nat then (n - 1)%nat
                else num res in
    Some (st, {| num := num1; error := error res |}).

(** ** physics.ts: calculateOrbit *)

Definition timeStep : R := 0.1.

(** The fallback every failing path returns. *)
Definition fallback : Arr Vec3 * R := (samplePlanarOrbit 1 0.1, 0).

Definition calculateOrbit_try (finalTime : R)
    (initialPosition initialVelocity : Vec3) (attractorRadius : R)
    : option (Arr Vec3 * R) :=
  let GM := 4.0 * PI * PI in
  let numPoints := Z.abs_nat (Math_round (finalTime / timeStep)) in
  if (numPoints <=? 0)%nat || Rleb timeStep 0 then Some fallback
  else
    do positions <- new_Array Vec3 numPoints;
    do velocities <- new_Array Vec3 numPoints;
    do times <- new_Array R numPoints;
    let positions := aset positions 0 (Some initialPosition) in
    let velocities := aset velocities 0 (Some initialVelocity) in
    let times := aset times 0 (Some 0) in
    let r := sqrt (x initialPosition ^ 2 + y initialPosition ^ 2
                   + z initialPosition ^ 2) in
    let vmag := sqrt (x initialVelocity ^ 2 + y initialVelocity ^ 2
                      + z initialVelocity ^ 2) in
    let mass := 1 in
    let KE := 0.5 * mass * vmag ^ 2 in
    let PH := - GM / r
              + ((0.75 * GM * (attractorRadius ^ 2) * (z initialPosition ^ 2))
                 / r ^ 5)
              - ((0.25 * GM * attractorRadius ^ 2) / r ^ 3) in
    let E := KE + mass * PH in
    if Rleb r 0 || Rleb vmag 0 then Some fallback
    else
      let numComputed := 0%nat in
      let errorFlag := 0%nat in
      do (st, result) <- planetRK2 numPoints numComputed attractorRadius GM
                            timeStep times positions velocities errorFlag;
      let numComputed := num result in
      if (numComputed <? 2)%nat then Some fallback
      else Some (slice0 (pos st) (numComputed + 1), E).

Definition calculateOrbit (finalTime : R)
    (initialPosition initialVelocity : Vec3) (attractorRadius : R)
    : Arr Vec3 * R :=
  match calculateOrbit_try finalTime initialPosition initialVelocity
          attractorRadius with
  | Some res => res
  | None => fallback
  end.

(** * Notions the properties are stated with *)

(** ** The iterated step *)

(** The states the integrator passes through while nothing collides: the
    entries of index [k] are [rk2_step] iterated [k] times on the initial
    ones. *)
Fixpoint orbit_state (radius GM dt : R) (p0 v0 : Vec3) (k : nat)
    : Vec3 * Vec3 :=
  match k with
  | O => (p0, v0)
  | S k' =>
      let '(p, v) := orbit_state radius GM dt p0 v0 k' in
      rk2_step radius GM dt p v
  end.

(** ** The arrays after a run of the step loop *)

(** The three arrays have length [n], as [calculateOrbit] allocates them. *)
Definition sized (n : nat) (s : Store) : Prop :=
  length (t s) = n /\ length (pos s) = n /\ length (vel s) = n.

(** The velocity line 171 writes into the frozen tail. *)
Definition zero3 : Vec3 := {| x := 0.0; y := 0.0; z := 0.0 |}.

(** Step [k] was integrated: nothing collided at index [k], and the
    entries of index [k + 1] are those [rk2_step] computes. *)
Definition stepped (radius GM dt : R) (s : Store) (k : nat) : Prop :=
  exists p v,
    aget (pos s) k = Some p /\ aget (vel s) k = Some v /\
    ~ hypot3 p < radius /\
    aget (pos s) (k + 1) = Some (fst (rk2_step radius GM dt p v)) /\
    aget (vel s) (k + 1) = Some (snd (rk2_step radius GM dt p v)).

(** The loop stopped at index [c]: the radius there is below [radius] and
    every later entry is frozen. *)
Definition collided (n : nat) (radius : R) (s : Store) (c : nat) : Prop :=
  exists p,
    aget (pos s) c = Some p /\ hypot3 p < radius /\
    forall k, (c < k <= n - 1)%nat ->
              aget (pos s) k = Some p /\ aget (vel s) k = Some zero3.

(** The time array advances by [dt] from index [i] on. *)
Definition ticking (n : nat) (dt : R) (s : Store) (i : nat) : Prop :=
  forall k, (i <= k < n - 1)%nat ->
            aget (t s) (k + 1) = advance dt (aget (t s) k).

(** The stopping condition of the loop at index [k]. *)
Definition collides_at (radius GM dt : R) (p0 v0 : Vec3) (k : nat) : Prop :=
  hypot3 (fst (orbit_state radius GM dt p0 v0 k)) < radius.



(** ** The velocity update of the specification *)

Definition vadd (a b : Vec3) : Vec3 :=
  {| x := x a + x b; y := y a + y b; z := z a + z b |}.
Definition vsub (a b : Vec3) : Vec3 :=
  {| x := x a - x b; y := y a - y b; z := z a - z b |}.
Definition vscale (c : R) (a : Vec3) : Vec3 :=
  {| x := c * x a; y := c * y a; z := c * z a |}.

(** The half-step position of the specification: [pos + (dt/2) vel]. *)
Definition half_step (dt : R) (p v : Vec3) : Vec3 := vadd p (vscale (dt / 2) v).

(** The acceleration of the specification at a position [q]. *)
Definition accel (radius GM : R) (q : Vec3) : Vec3 :=
  let r := hypot3 q in
  let m := GM / r ^ 3 in
  let o := -3.75 * GM * radius ^ 2 * z q ^ 2 / r ^ 7 in
  let p := 0.75 * GM * radius ^ 2 / r ^ 5 in
  let q' := 1.5 * GM * radius ^ 2 / r ^ 5 in
  {| x := - x q * (m + o + p);
     y := - y q * (m + o + p);
     z := - z q * (m + o + p + q') |}.

(** Step [i] was accepted, and the velocity it wrote to index [i + 1] is
    the velocity of index [i] combined with [dt] times the acceleration at
    the half-step position. *)
Definition velocity_rule (combine : Vec3 -> Vec3 -> Vec3)
    (radius GM dt : R) (s : Store) (i : nat) : Prop :=
  exists p v,
    aget (pos s) i = Some p /\ aget (vel s) i = Some v /\
    ~ hypot3 p < radius /\
    aget (vel s) (i + 1)
    = Some (combine v (vscale dt (accel radius GM (half_step dt p v)))).

(** The claim as the specification words it: [vel - dt * accel]. *)
Definition velocity_rule_as_stated (n : nat) (radius GM dt : R)
    (t0 : Arr R) (pos0 vel0 : Arr Vec3) : Prop :=
  forall st' res,
    planetRK2 n 0 radius GM dt t0 pos0 vel0 0 = Some (st', res) ->
    forall i, (i < num res)%nat -> velocity_rule vsub radius GM dt st' i.

(** ** The result of [calculateOrbit] *)

(** [numPoints] of [calculateOrbit]. *)
Definition numPoints_of (finalTime : R) : nat :=
  Z.abs_nat (Math_round (finalTime / timeStep)).

(** The energy of the specification:
    [0.5 v0^2 - GM/r0 + (0.75 GM a^2 z0^2)/r0^5 - (0.25 GM a^2)/r0^3] with
    [GM = 4 pi^2]. *)
Definition claimed_energy (p0 v0 : Vec3) (attractorRadius : R) : R :=
  let GM := 4 * PI ^ 2 in
  let r0 := hypot3 p0 in
  let vmag := hypot3 v0 in
  let z0 := z p0 in
  0.5 * vmag ^ 2 - GM / r0
  + (0.75 * GM * attractorRadius ^ 2 * z0 ^ 2) / r0 ^ 5
  - (0.25 * GM * attractorRadius ^ 2) / r0 ^ 3.

(** The single point the fallback consists of. *)
Definition fallback_point : Vec3 := {| x := 0.1; y := 0; z := 0 |}.

(** The call of [planetRK2] that [calculateOrbit] makes. *)
Definition integration (finalTime : R) (p0 v0 : Vec3) (attractorRadius : R)
    : option (Store * Result) :=
  planetRK2 (numPoints_of finalTime) 0 attractorRadius (4.0 * PI * PI)
    timeStep
    (aset (repeat None (numPoints_of finalTime)) 0 (Some 0))
    (aset (repeat None (numPoints_of finalTime)) 0 (Some p0))
    (aset (repeat None (numPoints_of finalTime)) 0 (Some v0)) 0.

(** ** The circle of the sampler *)

(** The angle of the [k]-th of [samples] points: [2 pi k / samples]. *)
Definition angle (samples k : nat) : R := 2 * PI * INR k / INR samples.

(** The point of the circle of radius [radius] at angle [theta]. *)
Definition circle_point (radius theta : R) : Vec3 :=
  {| x := radius * cos theta; y := radius * sin theta; z := 0 |}.

(** ** Motion along the x axis *)

(** The factor [m + o + p] of the force law at radius [r] in the plane
    z = 0. *)
Definition coeff (radius GM r : R) : R :=
  GM / (r * r * r) + 0.75 * ((GM * radius * radius) / (r * r * r * (r * r))).

(** ** Length and first point of the trajectory *)

(** The claim as the specification words it: [round(|finalTime|/0.1) + 1]
    points. *)
Definition length_as_stated (finalTime : R) (p0 v0 : Vec3)
    (attractorRadius : R) : Prop :=
  (1 <= numPoints_of finalTime)%nat ->
  (Z.of_nat (numPoints_of finalTime) <= max_array_length)%Z ->
  0 < hypot3 p0 -> 0 < hypot3 v0 ->
  (forall k, (k <= numPoints_of finalTime - 2)%nat ->
     ~ collides_at attractorRadius (4.0 * PI * PI) timeStep p0 v0 k) ->
  length (fst (calculateOrbit finalTime p0 v0 attractorRadius))
  = (Z.to_nat (Math_round (Rabs finalTime / 0.1)) + 1)%nat.

(** The claim as the specification words it; an input is valid when it
    passes the guards of [calculateOrbit] (a positive, allocatable point
    count) and the attractor radius is not negative. *)
Definition first_point_as_stated (finalTime : R) (p0 v0 : Vec3)
    (attractorRadius : R) : Prop :=
  (1 <= numPoints_of finalTime)%nat ->
  (Z.of_nat (numPoints_of finalTime) <= max_array_length)%Z ->
  0 <= attractorRadius ->
  hypot3 p0 > attractorRadius -> hypot3 v0 > 0 ->
  (2 <= length (fst (calculateOrbit finalTime p0 v0 attractorRadius)))%nat /\
  aget (fst (calculateOrbit finalTime p0 v0 attractorRadius)) 0 = Some p0.

(** ** Division by zero

    Every step divides by powers of two radii: the radius [r] of the
    position (lines 115, 126-134) and the radius [rpri] of the half-step
    position (lines 137, 146-154).  When one of them is 0 the program goes
    on with Infinity and NaN ([GM / 0] is Infinity, [m + o + p] is then
    NaN), which the reals do not have: a value of the model stands for a
    number of the program only when no divisor on its way was 0. *)

(** [rpri] of line 137. *)
Definition half_radius (dt : R) (p v : Vec3) : R :=
  hypot3 {| x := x p + (dt * x v) / 2.0;
            y := y p + (dt * y v) / 2.0;
            z := z p + (dt * z v) / 2.0 |}.

(** The position of index [k] is computed without a division by zero.
    [pos[k]] is made of [pos[k - 1]], [vel[k - 1]] and the radius of step
    [k - 1]; [vel[k - 1]] is made of [pos[k - 2]], [vel[k - 2]] and the
    half-step radius of step [k - 2]: so [pos[k]] uses the radius of every
    step before [k] and the half-step radius of every step before
    [k - 1]. *)
Definition point_defined (radius GM dt : R) (p0 v0 : Vec3) (k : nat) : Prop :=
  (forall j, (j < k)%nat ->
     hypot3 (fst (orbit_state radius GM dt p0 v0 j)) <> 0) /\
  (forall j, (j + 1 < k)%nat ->
     half_radius dt (fst (orbit_state radius GM dt p0 v0 j))
       (snd (orbit_state radius GM dt p0 v0 j)) <> 0).

(** The claim as the specification words it, for every planar input: each
    point of the trajectory is a number of the program (it is computed
    without a division by zero) whose z is 0. *)
Definition planar_as_stated (finalTime : R) (p0 v0 : Vec3)
    (attractorRadius : R) : Prop :=
  z p0 = 0 -> z v0 = 0 -> 0 <= attractorRadius ->
  forall k,
    (k < length (fst (calculateOrbit finalTime p0 v0 attractorRadius)))%nat ->
    point_defined attractorRadius (4.0 * PI * PI) timeStep p0 v0 k /\
    exists q,
      aget (fst (calculateOrbit finalTime p0 v0 attractorRadius)) k = Some q /\
      z q = 0.

(** * UserInterface.tsx

    The component keeps no state of its own: its handlers compute an
    updater and pass it to [setSimParams].  A handler is modelled by the
    updater it passes ([None] when it does not call [setSimParams]); the
    closure variable [simParams] is the state of the render the handler
    belongs to, [prev] the state React applies the updater to.  Every
    handler also calls [setCalcEnergy] with the identity, which changes
    nothing and is left out. *)

Module UI.

Record SimulationParams : Type := mkSimulationParams {
  attractorSize : R;
  finalTime : R;
  initialPosition : Vec3;
  initialVelocity : Vec3
}.










(** Lines 110-111: the classification shown after the energy. *)
Inductive Label : Type := Unbound | Bound | NoLabel.

Definition energyLabel (energy : option R) : Label :=
  match energy with
  | Some e => if Rltb 0 e then Unbound else Bound
  | None => NoLabel
  end.

End UI.

(** * App.tsx

    The state of the application and what the controls do to it: the
    [onChange] and [onClick] handlers of UserInterface.tsx (lines 120-240)
    and the two preset buttons of App.tsx (lines 72-100). *)

Module App.

(** Lines 11-16. *)
Definition initialParams : UI.SimulationParams :=
  {| UI.attractorSize := 1;
     UI.initialPosition := {| x := 5; y := 0; z := 0 |};
     UI.initialVelocity := {| x := 0; y := 3; z := 0 |};
     UI.finalTime := 100 |}.




(** Lines 18-23: the orbit the application computes from its state. *)
Definition orbit (simParams : UI.SimulationParams) : Arr Vec3 * R :=
  calculateOrbit (UI.finalTime simParams) (UI.initialPosition simParams)
    (UI.initialVelocity simParams) (UI.attractorSize simParams).

End App.

(** * Canvas.tsx

    Matrices are built by [push] alone and are lists.  The arrays derived
    from the trajectory keep its holes; a hole spread into [Math.max] is
    [undefined], the result is then NaN, which the model gives as [None]
    (as it does for the [-Infinity] of an empty spread). *)

Module Canvas.

Inductive Axis : Type := axis_x | axis_y | axis_z.

(** Lines 261-284. *)
Definition createSphereMatrix (radius : R) (axis : Axis) (resolution : nat)
    : list (list R) :=
  fold_left
    (fun matrix i =>
       let theta := (INR i / INR resolution) * PI in
       let row :=
         fold_left
           (fun row j =>
              let phi := (INR j / INR resolution) * 2 * PI in
              let x := radius * sin theta * cos phi in
              let y := radius * sin theta * sin phi in
              let z := radius * cos theta in
              match axis with
              | axis_x => row ++ [x]
              | axis_y => row ++ [y]
              | axis_z => row ++ [z]
              end)
           (seq 0 (resolution + 1)) [] in
       matrix ++ [row])
    (seq 0 (resolution + 1)) [].

(** Lines 287-311. *)
Definition createRingMatrix (radius tubeRadius : R) (axis : Axis)
    (resolution : nat) : list (list R) :=
  fold_left
    (fun matrix i =>
       let theta := (INR i / INR resolution) * 2 * PI in
       let row :=
         fold_left
           (fun row j =>
              let phi := (INR j / INR resolution) * 2 * PI in
              let x := (radius + tubeRadius * cos phi) * cos theta in
              let y := (radius + tubeRadius * cos phi) * sin theta in
              let z := tubeRadius * sin phi in
              match axis with
              | axis_x => row ++ [x]
              | axis_y => row ++ [y]
              | axis_z => row ++ [z]
              end)
           (seq 0 (resolution + 1)) [] in
       matrix ++ [row])
    (seq 0 (resolution + 1)) [].

(** [a.map(f)]: holes stay holes. *)
Definition amap {A B : Type} (f : A -> B) (a : Arr A) : Arr B :=
  map (option_map f) a.

(** [Math.max(...a)] *)
Definition Math_max_spread (a : Arr R) : option R :=
  match a with
  | [] => None
  | o :: rest =>
      fold_left (fun acc o' => do m <- acc; do v <- o'; Some (Rmax m v))
        rest o
  end.

(** Lines 322-344: [rangeSize]. *)
Definition rangeSize (data : Arr Vec3) (energy : R) : option R :=
  let xValues := push (amap x data) 0 in
  let yValues := push (amap y data) 0 in
  let zValues := push (amap z data) 0 in
  if Rltb energy 0 then
    do maxX <- Math_max_spread (amap Rabs xValues);
    do maxY <- Math_max_spread (amap Rabs yValues);
    do maxZ <- Math_max_spread (amap Rabs zValues);
    let maxDistance := Rmax (Rmax (Rmax maxX maxY) maxZ) 5 in
    Some (maxDistance * 1.25)
  else Some 20.

(** Lines 346-348 and 393-395: the x, y and z matrices of the surface
    drawn as the plane z = 0. *)
Definition planeSurface (rangeSize : R)
    : list (list R) * list (list R) * list (list R) :=
  let xRange0 := - rangeSize in
  let xRange1 := rangeSize in
  let yRange0 := - rangeSize in
  let yRange1 := rangeSize in
  ([[- xRange0; xRange1]; [- xRange0; xRange1]],
   [[- yRange0; - yRange0]; [yRange1; yRange1]],
   [[0; 0]; [0; 0]]).

(** Lines 451, 462, 473: the range of an axis. *)
Definition axisRange (rangeSize : R) : R * R :=
  let range0 := - rangeSize in
  let range1 := rangeSize in
  (- Rmax (Rabs range0) (Rabs range1), Rmax (Rabs range0) (Rabs range1)).

(** Lines 405-416: the x, y and z matrices of the attractor surface. *)
Definition attractorSurface (attractorSize attractorThreshold : R)
    : list (list R) * list (list R) * list (list R) :=
  if Rltb attractorSize attractorThreshold then
    (createSphereMatrix (Rmax 0.5 attractorSize) axis_x 32,
     createSphereMatrix (Rmax 0.5 attractorSize) axis_y 32,
     createSphereMatrix (Rmax 0.5 attractorSize) axis_z 32)
  else
    (createRingMatrix attractorSize (attractorSize * 0.2) axis_x 32,
     createRingMatrix attractorSize (attractorSize * 0.2) axis_y 32,
     createRingMatrix attractorSize (attractorSize * 0.2) axis_z 32).

(** The entry of row [i] and column [j] of a matrix. *)
Definition entry (m : list (list R)) (i j : nat) : option R :=
  match nth_error m i with
  | Some row => nth_error row j
  | None => None
  end.

End Canvas.

(** ** Notions for the controls and the canvas *)

(** The UI's notion of a valid state, with a positive attractor size: the
    initial position is on or outside the attractor. *)
Definition outside_attractor (s : UI.SimulationParams) : Prop :=
  0 < UI.attractorSize s <= hypot3 (UI.initialPosition s).




(** Every coordinate of every point of [data] is at most [m] in absolute
    value. *)
Definition within_box (data : Arr Vec3) (m : R) : Prop :=
  forall k q, aget data k = Some q ->
    Rabs (x q) <= m /\ Rabs (y q) <= m /\ Rabs (z q) <= m.

(** No index of [a] is a hole. *)
Definition dense {A : Type} (a : Arr A) : Prop :=
  forall k, (k < length a)%nat -> exists v, aget a k = Some v.

(** The point of index [(i, j)] of the sphere and of the torus that the
    matrices sample, and the coordinate a matrix keeps of it. *)
Definition sphere_point (radius : R) (resolution i j : nat) : Vec3 :=
  let theta := (INR i / INR resolution) * PI in
  let phi := (INR j / INR resolution) * 2 * PI in
  {| x := radius * sin theta * cos phi;
     y := radius * sin theta * sin phi;
     z := radius * cos theta |}.

Definition ring_point (radius tubeRadius : R) (resolution i j : nat) : Vec3 :=
  let theta := (INR i / INR resolution) * 2 * PI in
  let phi := (INR j / INR resolution) * 2 * PI in
  {| x := (radius + tubeRadius * cos phi) * cos theta;
     y := (radius + tubeRadius * cos phi) * sin theta;
     z := tubeRadius * sin phi |}.

Definition coordinate (axis : Canvas.Axis) (p : Vec3) : R :=
  match axis with
  | Canvas.axis_x => x p
  | Canvas.axis_y => y p
  | Canvas.axis_z => z p
  end.

(** * Tactics *)

(** Decimal literals are [Q2R] of a fraction; [ring] and [field] want them
    as quotients of integers. *)
Ltac decimals := unfold Q2R in *; cbn [QArith_base.Qnum QArith_base.Qden] in *.

(** * Arrays *)

Lemma length_aset {A : Type} (a : Arr A) (i : nat) (o : option A) :
  length (aset a i o) = Nat.max (length a) (S i).
Proof.
  revert a; induction i as [|i IH]; intros [|h a]; simpl;
    try rewrite IH; simpl; lia.
Qed.

Lemma aget_aset_eq {A : Type} (a : Arr A) (i : nat) (o : option A) :
  aget (aset a i o) i = o.
Proof.
  revert a; induction i as [|i IH]; intros [|h a]; try reflexivity.
  - exact (IH []).
  - exact (IH a).
Qed.

Lemma aget_nil {A : Type} (j : nat) : aget (@nil (option A)) j = None.
Proof. destruct j; reflexivity. Qed.

Lemma aget_aset_neq {A : Type} (a : Arr A) (i j : nat) (o : option A) :
  i <> j -> aget (aset a i o) j = aget a j.
Proof.
  revert a j; induction i as [|i IH]; intros [|h a] [|j] Hij;
    try reflexivity; try congruence.
  - unfold aget; simpl. destruct j; reflexivity.
  - change (aget (aset [] i o) j = aget [] (S j)).
    rewrite IH by congruence. now rewrite !aget_nil.
  - change (aget (aset a i o) j = aget a j). apply IH; congruence.
Qed.

(** Writes past the end extend the array with holes; reads of holes and of
    indices past the end give [undefined]. *)
Example aset_extends : aset [Some 1%nat] 3 (Some 7%nat)
                       = [Some 1%nat; None; None; Some 7%nat].
Proof. reflexivity. Qed.

Example aget_hole : aget [Some 1%nat; None; Some 7%nat] 1 = None
                    /\ aget [Some 1%nat; None; Some 7%nat] 5 = None
                    /\ aget [Some 1%nat; None; Some 7%nat] 2 = Some 7%nat.
Proof. repeat split. Qed.

(** A loop that breaks at index 2 leaves the later indices unvisited. *)
Example for_break_stops :
  for_break (fun i acc => Some (i :: acc, (i =? 2)%nat)) (seq 0 5) []
  = Some [2; 1; 0]%nat.
Proof. reflexivity. Qed.

Lemma aget_slice0 {A : Type} (a : Arr A) (k i : nat) :
  (i < k)%nat -> aget (slice0 a k) i = aget a i.
Proof.
  revert a i; induction k as [|k IH]; intros a i Hi; [lia|].
  destruct a as [|h a]; [reflexivity|].
  destruct i as [|i]; [reflexivity|].
  apply (IH a i); lia.
Qed.

Lemma length_slice0 {A : Type} (a : Arr A) (k : nat) :
  (k <= length a)%nat -> length (slice0 a k) = k.
Proof. intros H; unfold slice0; rewrite length_firstn; lia. Qed.

(** * Comparisons *)

Lemma Rltb_true (a b : R) : Rltb a b = true <-> a < b.
Proof.
  unfold Rltb; destruct (Rlt_dec a b); split; intros;
    congruence || assumption.
Qed.

Lemma Rltb_false (a b : R) : Rltb a b = false <-> ~ a < b.
Proof.
  unfold Rltb; destruct (Rlt_dec a b); split; intros; congruence || tauto.
Qed.

Lemma Rleb_true (a b : R) : Rleb a b = true <-> a <= b.
Proof.
  unfold Rleb; destruct (Rle_dec a b); split; intros;
    congruence || assumption.
Qed.

Lemma Rleb_false (a b : R) : Rleb a b = false <-> ~ a <= b.
Proof.
  unfold Rleb; destruct (Rle_dec a b); split; intros; congruence || tauto.
Qed.

(** * The step loop *)

Lemma Vec3_eta (p : Vec3) : {| x := x p; y := y p; z := z p |} = p.
Proof. destruct p; reflexivity. Qed.

Section Loop.

Variables (n : nat) (radius GM dt : R).

Lemma freeze_spec (i : nat) (p : Vec3) :
  forall (m j : nat) (s : Store),
    (j + m = n - 1)%nat -> (i <= j)%nat -> sized n s ->
    aget (pos s) i = Some p ->
    exists s',
      for_break (freeze_body i dt) (seq j m) s = Some s' /\
      sized n s' /\
      (forall k, (k <= j)%nat ->
                 aget (pos s') k = aget (pos s) k /\
                 aget (vel s') k = aget (vel s) k) /\
      (forall k, (k <= Nat.max j (i + 1))%nat ->
                 aget (t s') k = aget (t s) k) /\
      (forall k, (j < k <= n - 1)%nat ->
                 aget (pos s') k = Some p /\ aget (vel s') k = Some zero3) /\
      (forall k, (Nat.max j (i + 1) <= k < n - 1)%nat ->
                 aget (t s') (k + 1) = advance dt (aget (t s') k)).
Proof.
  induction m as [|m IH]; intros j s Hm Hij (Ht & Hp & Hv) Hpi.
  - exists s. cbn [seq for_break].
    repeat split; auto; intros; lia.
  - cbn [seq for_break]. unfold freeze_body at 1.
    rewrite Hpi; cbn [bind]. rewrite Vec3_eta.
    set (s1 := {| t := _; pos := _; vel := _ |}).
    assert (Hs1 : sized n s1).
    { unfold sized, s1; cbn [t pos vel]. rewrite !length_aset.
      destruct (i + 1 <? j + 1)%nat; rewrite ?length_aset; lia. }
    assert (Hpi1 : aget (pos s1) i = Some p).
    { unfold s1; cbn [pos]. rewrite aget_aset_neq by lia. exact Hpi. }
    destruct (IH (S j) s1 ltac:(lia) ltac:(lia) Hs1 Hpi1)
      as (s' & Hrun & Hs' & Hsame & Htsame & Hfrozen & Htick).
    exists s'. split; [exact Hrun|]. split; [exact Hs'|].
    assert (Ht1 : forall k, (k <= Nat.max j (i + 1))%nat ->
                            aget (t s1) k = aget (t s) k).
    { intros k Hk. unfold s1; cbn [t].
      destruct (i + 1 <? j + 1)%nat eqn:E; [|reflexivity].
      apply Nat.ltb_lt in E. apply aget_aset_neq; lia. }
    repeat split.
    + destruct (Hsame k ltac:(lia)) as [-> _].
      unfold s1; cbn [pos]. apply aget_aset_neq; lia.
    + destruct (Hsame k ltac:(lia)) as [_ ->].
      unfold s1; cbn [vel]. apply aget_aset_neq; lia.
    + intros k Hk. rewrite Htsame by lia. apply Ht1; exact Hk.
    + destruct (Nat.eq_dec k (S j)) as [->|Hne].
      * destruct (Hsame (S j) ltac:(lia)) as [-> _].
        unfold s1; cbn [pos]. replace (j + 1)%nat with (S j) by lia.
        apply aget_aset_eq.
      * apply Hfrozen; lia.
    + destruct (Nat.eq_dec k (S j)) as [->|Hne].
      * destruct (Hsame (S j) ltac:(lia)) as [_ ->].
        unfold s1; cbn [vel]. replace (j + 1)%nat with (S j) by lia.
        apply aget_aset_eq.
      * apply Hfrozen; lia.
    + intros k Hk.
      destruct (Nat.eq_dec j i) as [->|Hji].
      * apply Htick; lia.
      * destruct (Nat.eq_dec k j) as [->|Hkj].
        -- rewrite !Htsame by lia. unfold s1; cbn [t].
           assert (E : (i + 1 <? j + 1)%nat = true) by (apply Nat.ltb_lt; lia).
           rewrite E. rewrite aget_aset_eq.
           rewrite aget_aset_neq by lia. reflexivity.
        -- apply Htick; lia.
Qed.

Lemma loop_spec :
  forall (m i : nat) (st : Store) (res0 : Result),
    (i + m = n - 1)%nat -> sized n st -> error res0 = 0%nat ->
    (exists p, aget (pos st) i = Some p) ->
    (exists v, aget (vel st) i = Some v) ->
    exists st' res,
      for_break (rk2_body n radius GM dt) (seq i m) (st, res0)
        = Some (st', res) /\
      sized n st' /\
      (forall k, (k <= i)%nat ->
                 aget (pos st') k = aget (pos st) k /\
                 aget (vel st') k = aget (vel st) k /\
                 aget (t st') k = aget (t st) k) /\
      ticking n dt st' i /\
      ((error res = 0%nat /\ (m = 0%nat -> res = res0) /\
        ((0 < m)%nat -> num res = (n - 1)%nat) /\
        (forall k, (i <= k < n - 1)%nat -> stepped radius GM dt st' k))
       \/
       (error res = 1%nat /\ (i <= num res <= n - 2)%nat /\
        (forall k, (i <= k < num res)%nat -> stepped radius GM dt st' k) /\
        collided n radius st' (num res))).
Proof.
  induction m as [|m IH]; intros i st res0 Hm Hsz He [p Hp] [v Hv].
  - exists st, res0. cbn [seq for_break].
    split; [reflexivity|]. split; [exact Hsz|].
    split; [intros; auto|]. split; [intros k Hk; lia|].
    left. repeat split; auto; intros; lia.
  - cbn [seq for_break]. unfold rk2_body at 1.
    rewrite Hp, Hv; cbn [bind].
    destruct (rk2_step radius GM dt p v) as [pos1 vel1] eqn:Estep.
    set (st1 := {| t := _; pos := _; vel := _ |}).
    destruct Hsz as (Ht & Hpl & Hvl).
    assert (Hs1 : sized n st1).
    { unfold sized, st1; cbn [t pos vel]. rewrite !length_aset. lia. }
    assert (Hold : forall k, (k <= i)%nat ->
              aget (pos st1) k = aget (pos st) k /\
              aget (vel st1) k = aget (vel st) k /\
              aget (t st1) k = aget (t st) k).
    { intros k Hk. unfold st1; cbn [t pos vel].
      rewrite !aget_aset_neq by lia. auto. }
    assert (Hnew : aget (pos st1) (i + 1) = Some pos1 /\
                   aget (vel st1) (i + 1) = Some vel1 /\
                   aget (t st1) (i + 1) = advance dt (aget (t st) i)).
    { unfold st1; cbn [t pos vel]. rewrite !aget_aset_eq. auto. }
    destruct Hnew as (Hnp & Hnv & Hnt).
    destruct (Rltb (hypot3 p) radius) eqn:Ecol.
    + (* the stopping condition holds at index i *)
      apply Rltb_true in Ecol.
      assert (Hp1 : aget (pos st1) i = Some p).
      { destruct (Hold i (Nat.le_refl i)) as (-> & _). exact Hp. }
      destruct (freeze_spec i p (n - 1 - i) i st1 ltac:(lia) (Nat.le_refl i)
                  Hs1 Hp1)
        as (s' & Hrun & Hs' & Hsame & Htsame & Hfrozen & Htick).
      rewrite Hrun; cbn [bind].
      exists s', {| num := i; error := 1 |}.
      split; [reflexivity|]. split; [exact Hs'|].
      split.
      { intros k Hk. destruct (Hsame k Hk) as (-> & ->).
        rewrite Htsame by lia. apply Hold; exact Hk. }
      split.
      { intros k Hk. destruct (Nat.eq_dec k i) as [->|Hne].
        - rewrite !Htsame by lia. rewrite Hnt.
          destruct (Hold i (Nat.le_refl i)) as (_ & _ & ->). reflexivity.
        - apply Htick; lia. }
      right. cbn [num error].
      split; [reflexivity|]. split; [lia|]. split; [intros; lia|].
      exists p. split.
      { destruct (Hsame i (Nat.le_refl i)) as (-> & _). exact Hp1. }
      split; [exact Ecol|]. intros k Hk; apply Hfrozen; lia.
    + (* the step is accepted *)
      apply Rltb_false in Ecol.
      set (res1 := {| num := (i + 1)%nat; error := _ |}).
      assert (He1 : error res1 = 0%nat).
      { unfold res1; cbn [error]. destruct (i =? n - 2)%nat; auto. }
      destruct (IH (S i) st1 res1 ltac:(lia) Hs1 He1) as
        (st' & res & Hrun & Hs' & Hsame & Htick & Hcases).
      { exists pos1. replace (S i) with (i + 1)%nat by lia. exact Hnp. }
      { exists vel1. replace (S i) with (i + 1)%nat by lia. exact Hnv. }
      exists st', res. split; [exact Hrun|]. split; [exact Hs'|].
      assert (Hsame_i : forall k, (k <= i)%nat ->
                 aget (pos st') k = aget (pos st) k /\
                 aget (vel st') k = aget (vel st) k /\
                 aget (t st') k = aget (t st) k).
      { intros k Hk. destruct (Hsame k ltac:(lia)) as (-> & -> & ->).
        apply Hold; exact Hk. }
      assert (Hstep_i : stepped radius GM dt st' i).
      { exists p, v.
        destruct (Hsame_i i (Nat.le_refl i)) as (-> & -> & _).
        destruct (Hsame (i + 1)%nat ltac:(lia)) as (-> & -> & _).
        rewrite Estep; cbn [fst snd]. auto. }
      split; [exact Hsame_i|]. split.
      { intros k Hk. destruct (Nat.eq_dec k i) as [->|Hne].
        - destruct (Hsame (i + 1)%nat ltac:(lia)) as (_ & _ & ->).
          destruct (Hsame_i i (Nat.le_refl i)) as (_ & _ & ->). exact Hnt.
        - apply Htick; lia. }
      destruct Hcases as [(He' & Hm0 & Hmpos & Hsteps)
                         |(He' & Hrange & Hsteps & Hcol)].
      * left. split; [exact He'|]. split; [intros; lia|]. split.
        -- intros _. destruct m as [|m'].
           ++ rewrite (Hm0 eq_refl). unfold res1; cbn [num]. lia.
           ++ apply Hmpos; lia.
        -- intros k Hk. destruct (Nat.eq_dec k i) as [->|Hne];
             [exact Hstep_i | apply Hsteps; lia].
      * right. split; [exact He'|]. split; [lia|]. split; [|exact Hcol].
        intros k Hk. destruct (Nat.eq_dec k i) as [->|Hne];
          [exact Hstep_i | apply Hsteps; lia].
Qed.

(** What [planetRK2] returns on arrays of length [n >= 2] whose index 0
    is populated: it does not throw, and the run either integrated every
    step or stopped at the first index whose radius is below [radius]. *)
Lemma planetRK2_spec (num0 error0 : nat) (t0 : Arr R) (pos0 vel0 : Arr Vec3)
    (p0 v0 : Vec3) :
  (2 <= n)%nat ->
  sized n {| t := t0; pos := pos0; vel := vel0 |} ->
  aget pos0 0 = Some p0 -> aget vel0 0 = Some v0 ->
  exists st' res,
    planetRK2 n num0 radius GM dt t0 pos0 vel0 error0 = Some (st', res) /\
    sized n st' /\
    aget (pos st') 0 = Some p0 /\ aget (vel st') 0 = Some v0 /\
    aget (t st') 0 = aget t0 0 /\
    ticking n dt st' 0 /\
    ((error res = 0%nat /\ num res = (n - 1)%nat /\
      (forall k, (k < n - 1)%nat -> stepped radius GM dt st' k))
     \/
     (error res = 1%nat /\ (num res <= n - 2)%nat /\
      (forall k, (k < num res)%nat -> stepped radius GM dt st' k) /\
      collided n radius st' (num res))).
Proof.
  intros Hn Hsz Hp Hv. unfold planetRK2.
  assert (E : (n <=? 1)%nat = false) by (apply Nat.leb_gt; lia).
  rewrite E.
  destruct (loop_spec (n - 1) 0 {| t := t0; pos := pos0; vel := vel0 |}
              {| num := num0; error := 0 |} ltac:(lia) Hsz eq_refl
              (ex_intro _ p0 Hp) (ex_intro _ v0 Hv))
    as (st' & res & Hrun & Hs' & Hsame & Htick & Hcases).
  rewrite Hrun; cbn [bind].
  assert (E2 : (2 <=? n)%nat = true) by (apply Nat.leb_le; lia).
  rewrite E2; cbn [andb].
  destruct (Hsame 0%nat (Nat.le_refl 0)) as (Hp' & Hv' & Ht').
  cbn [pos vel t] in Hp', Hv', Ht'.
  eexists st', _. split; [reflexivity|]. split; [exact Hs'|].
  split; [congruence|]. split; [congruence|]. split; [exact Ht'|].
  split; [exact Htick|]. cbn [num error].
  destruct Hcases as [(He' & _ & _ & Hsteps)|(He' & Hrange & Hsteps & Hcol)].
  - left. rewrite He'; cbn [Nat.eqb]. repeat split; auto.
    intros k Hk; apply Hsteps; lia.
  - right. rewrite He'; cbn [Nat.eqb]. repeat split; auto; try lia.
    intros k Hk; apply Hsteps; lia.
Qed.

End Loop.

(** * The run of [planetRK2] in terms of the iterated step *)

Section Run.

Variables (n : nat) (radius GM dt : R) (p0 v0 : Vec3).

Lemma stepped_orbit (s : Store) (c : nat) :
  aget (pos s) 0 = Some p0 -> aget (vel s) 0 = Some v0 ->
  (forall k, (k < c)%nat -> stepped radius GM dt s k) ->
  forall k, (k <= c)%nat ->
    aget (pos s) k = Some (fst (orbit_state radius GM dt p0 v0 k)) /\
    aget (vel s) k = Some (snd (orbit_state radius GM dt p0 v0 k)) /\
    (forall j, (j < k)%nat -> ~ collides_at radius GM dt p0 v0 j).
Proof.
  intros Hp Hv Hsteps. induction k as [|k IH]; intros Hk.
  - cbn. repeat split; auto. intros; lia.
  - destruct (IH ltac:(lia)) as (Hpk & Hvk & Hnc).
    destruct (Hsteps k ltac:(lia)) as (p & v & Hp' & Hv' & Hno & Hp1 & Hv1).
    rewrite Hpk in Hp'; rewrite Hvk in Hv'.
    injection Hp' as <-; injection Hv' as <-.
    replace (S k) with (k + 1)%nat by lia.
    rewrite Hp1, Hv1.
    replace (k + 1)%nat with (S k) by lia. cbn [orbit_state].
    destruct (orbit_state radius GM dt p0 v0 k) as [pk vk] eqn:Ek;
      cbn [fst snd].
    repeat split; auto.
    intros j Hj. destruct (Nat.eq_dec j k) as [->|Hne].
    + unfold collides_at. rewrite Ek. exact Hno.
    + apply Hnc; lia.
Qed.

Variables (num0 error0 : nat) (t0 : Arr R) (pos0 vel0 : Arr Vec3).
Hypothesis Hn : (2 <= n)%nat.
Hypothesis Hsized : sized n {| t := t0; pos := pos0; vel := vel0 |}.
Hypothesis Hpos0 : aget pos0 0 = Some p0.
Hypothesis Hvel0 : aget vel0 0 = Some v0.

(** The run that stops: [c] is the first loop index whose radius is below
    [radius]. *)
Lemma planetRK2_collision (c : nat) :
  (c <= n - 2)%nat -> collides_at radius GM dt p0 v0 c ->
  (forall k, (k < c)%nat -> ~ collides_at radius GM dt p0 v0 k) ->
  exists st',
    planetRK2 n num0 radius GM dt t0 pos0 vel0 error0
      = Some (st', {| num := c; error := 1 |}) /\
    sized n st' /\
    aget (t st') 0 = aget t0 0 /\ ticking n dt st' 0 /\
    (forall k, (k <= c)%nat ->
       aget (pos st') k = Some (fst (orbit_state radius GM dt p0 v0 k)) /\
       aget (vel st') k = Some (snd (orbit_state radius GM dt p0 v0 k))) /\
    (forall k, (c < k <= n - 1)%nat ->
       aget (pos st') k = Some (fst (orbit_state radius GM dt p0 v0 c)) /\
       aget (vel st') k = Some zero3).
Proof.
  intros Hc Hcol Hfirst.
  destruct (planetRK2_spec n radius GM dt num0 error0 t0 pos0 vel0 p0 v0
              Hn Hsized Hpos0 Hvel0)
    as (st' & res & Hrun & Hs' & Hp & Hv & Ht & Htick & Hcases).
  destruct Hcases as [(He & Hnum & Hsteps)|(He & Hle & Hsteps & Hcol')].
  - (* a complete run would have accepted step c *)
    exfalso.
    destruct (stepped_orbit st' (c + 1) Hp Hv) with (k := (c + 1)%nat)
      as (_ & _ & Hnc); [intros k Hk; apply Hsteps; lia | lia |].
    apply (Hnc c); [lia | exact Hcol].
  - destruct (stepped_orbit st' (num res) Hp Hv Hsteps (num res)
                (Nat.le_refl _))
      as (Hpn & Hvn & Hnc).
    assert (Hnumc : num res = c).
    { destruct (Nat.lt_trichotomy (num res) c) as [Hlt|[Heq|Hgt]].
      - exfalso. destruct Hcol' as (p & Hpp & Hlt' & _).
        rewrite Hpn in Hpp. injection Hpp as <-.
        exact (Hfirst (num res) Hlt Hlt').
      - exact Heq.
      - exfalso. exact (Hnc c Hgt Hcol). }
    exists st'. split.
    { rewrite Hrun. destruct res as [nm er]; cbn [num error] in *.
      subst; reflexivity. }
    split; [exact Hs'|]. split; [exact Ht|]. split; [exact Htick|].
    rewrite Hnumc in *. split.
    + intros k Hk.
      destruct (stepped_orbit st' c Hp Hv Hsteps k Hk) as (H1 & H2 & _).
      auto.
    + intros k Hk. destruct Hcol' as (p & Hpp & _ & Hfrozen).
      rewrite Hpn in Hpp. injection Hpp as <-. apply Hfrozen; exact Hk.
Qed.

(** The run that integrates every step. *)
Lemma planetRK2_complete :
  (forall k, (k <= n - 2)%nat -> ~ collides_at radius GM dt p0 v0 k) ->
  exists st',
    planetRK2 n num0 radius GM dt t0 pos0 vel0 error0
      = Some (st', {| num := n - 1; error := 0 |}) /\
    sized n st' /\
    aget (t st') 0 = aget t0 0 /\ ticking n dt st' 0 /\
    (forall k, (k <= n - 1)%nat ->
       aget (pos st') k = Some (fst (orbit_state radius GM dt p0 v0 k)) /\
       aget (vel st') k = Some (snd (orbit_state radius GM dt p0 v0 k))).
Proof.
  intros Hfree.
  destruct (planetRK2_spec n radius GM dt num0 error0 t0 pos0 vel0 p0 v0
              Hn Hsized Hpos0 Hvel0)
    as (st' & res & Hrun & Hs' & Hp & Hv & Ht & Htick & Hcases).
  destruct Hcases as [(He & Hnum & Hsteps)|(He & Hle & Hsteps & Hcol')].
  - exists st'. split.
    { rewrite Hrun. destruct res as [nm er]; cbn [num error] in *.
      subst; reflexivity. }
    split; [exact Hs'|]. split; [exact Ht|]. split; [exact Htick|].
    intros k Hk.
    destruct (stepped_orbit st' (n - 1) Hp Hv Hsteps k Hk) as (H1 & H2 & _).
    auto.
  - exfalso.
    destruct (stepped_orbit st' (num res) Hp Hv Hsteps (num res)
                (Nat.le_refl _))
      as (Hpn & _ & _).
    destruct Hcol' as (p & Hpp & Hlt & _).
    rewrite Hpn in Hpp. injection Hpp as <-.
    exact (Hfree (num res) Hle Hlt).
Qed.

End Run.

Lemma ticking_defined (n : nat) (dt : R) (s : Store) (tau0 : R) :
  aget (t s) 0 = Some tau0 -> ticking n dt s 0 ->
  forall k, (k <= n - 1)%nat -> aget (t s) k = Some (tau0 + INR k * dt).
Proof.
  intros H0 Htick. induction k as [|k IH]; intros Hk.
  - rewrite H0. f_equal. cbn [INR]. lra.
  - replace (S k) with (k + 1)%nat at 1 by lia.
    rewrite (Htick k ltac:(lia)), (IH ltac:(lia)). cbn [advance option_map].
    f_equal. rewrite S_INR. lra.
Qed.

(** * Collision freezing (C2) *)


(** ** A run that stops at index 0 *)

Lemma hypot3_x_axis (a : R) : hypot3 {| x := a; y := 0; z := 0 |} = Rabs a.
Proof.
  unfold hypot3; cbn [x y z].
  replace (a * a + 0 * 0 + 0 * 0) with (Rsqr a) by (unfold Rsqr; ring).
  apply sqrt_Rsqr_abs.
Qed.

Lemma hypot3_nonneg (p : Vec3) : 0 <= hypot3 p.
Proof. apply sqrt_pos. Qed.

Lemma sized_allocated (n : nat) (p0 v0 : Vec3) (tau0 : R) :
  (1 <= n)%nat ->
  sized n {| t := aset (repeat None n) 0 (Some tau0);
             pos := aset (repeat None n) 0 (Some p0);
             vel := aset (repeat None n) 0 (Some v0) |}.
Proof.
  intros Hn. unfold sized; cbn [t pos vel].
  rewrite !length_aset, !repeat_length. lia.
Qed.

Lemma infall_collides_at_0 (GM dt : R) :
  collides_at 1 GM dt {| x := 0.5; y := 0; z := 0 |}
    {| x := 0; y := 1; z := 0 |} 0.
Proof.
  unfold collides_at; cbn [orbit_state fst].
  rewrite hypot3_x_axis, Rabs_pos_eq; lra.
Qed.



(** * The velocity update (C4) *)

Lemma rk2_step_velocity (radius GM dt : R) (p v : Vec3) :
  snd (rk2_step radius GM dt p v)
  = vadd v (vscale dt (accel radius GM (half_step dt p v))).
Proof.
  unfold rk2_step; cbn [snd].
  assert (Hh : {| x := x p + dt * x v / 2.0;
                  y := y p + dt * y v / 2.0;
                  z := z p + dt * z v / 2.0 |} = half_step dt p v).
  { unfold half_step, vadd, vscale; cbn [x y z]. f_equal; decimals; field. }
  rewrite Hh.
  assert (Hx : x p + dt * x v / 2.0 = x (half_step dt p v))
    by (rewrite <- Hh; reflexivity).
  assert (Hy : y p + dt * y v / 2.0 = y (half_step dt p v))
    by (rewrite <- Hh; reflexivity).
  assert (Hz : z p + dt * z v / 2.0 = z (half_step dt p v))
    by (rewrite <- Hh; reflexivity).
  rewrite Hx, Hy, Hz.
  set (h := half_step dt p v). set (r := hypot3 h).
  unfold accel, vadd, vscale, sq; cbn [x y z]. fold r.
  replace (r * r * r) with (r ^ 3) by ring.
  replace (r ^ 3 * (r * r)) with (r ^ 5) by ring.
  replace (r ^ 5 * (r * r)) with (r ^ 7) by ring.
  f_equal; unfold Rdiv; decimals; ring.
Qed.

(** C4, amended: in every step of [planetRK2] that does not collide,
    [vel[i+1] = vel[i] + dt * accel (pos[i] + (dt/2) vel[i])], where
    [accel] has the components [-x (m+o+p)], [-y (m+o+p)], [-z (m+o+p+q)]
    of the specification: the acceleration is added, not subtracted. *)
Theorem velocity_update (n : nat) (radius GM dt : R)
    (t0 : Arr R) (pos0 vel0 : Arr Vec3) (p0 v0 : Vec3) (num0 error0 : nat)
    (st' : Store) (res : Result) :
  (2 <= n)%nat ->
  sized n {| t := t0; pos := pos0; vel := vel0 |} ->
  aget pos0 0 = Some p0 -> aget vel0 0 = Some v0 ->
  planetRK2 n num0 radius GM dt t0 pos0 vel0 error0 = Some (st', res) ->
  forall i, (i < num res)%nat -> velocity_rule vadd radius GM dt st' i.
Proof.
  intros Hn Hsz Hp Hv Hrun i Hi.
  destruct (planetRK2_spec n radius GM dt num0 error0 t0 pos0 vel0 p0 v0
              Hn Hsz Hp Hv)
    as (st'' & res' & Hrun' & _ & _ & _ & _ & _ & Hcases).
  rewrite Hrun in Hrun'. injection Hrun' as <- <-.
  assert (Hstep : stepped radius GM dt st' i).
  { destruct Hcases as [(_ & Hnum & Hsteps)|(_ & _ & Hsteps & _)].
    - apply Hsteps; lia.
    - apply Hsteps; lia. }
  destruct Hstep as (p & v & Hpi & Hvi & Hno & _ & Hv1).
  exists p, v. rewrite Hv1, rk2_step_velocity. auto.
Qed.

Lemma never_collides_radius_0 (GM dt : R) (p0 v0 : Vec3) (k : nat) :
  ~ collides_at 0 GM dt p0 v0 k.
Proof.
  unfold collides_at. intros H.
  pose proof (hypot3_nonneg (fst (orbit_state 0 GM dt p0 v0 k))). lra.
Qed.

Lemma GM_pos : 0 < 4.0 * PI * PI.
Proof. pose proof PI_RGT_0. nra. Qed.

(** C4 as stated fails: from (3,0,0) with velocity (0,80,0) around a point
    mass the half-step position is (3,4,0), and the x-velocity after one
    step is [- 0.3 GM / 125], not [+ 0.3 GM / 125]. *)
Lemma velocity_rule_as_stated_fails :
  ~ velocity_rule_as_stated 3 0 (4.0 * PI * PI) 0.1
      [Some 0; None; None]
      [Some {| x := 3; y := 0; z := 0 |}; None; None]
      [Some {| x := 0; y := 80; z := 0 |}; None; None].
Proof.
  intros H.
  set (p0 := {| x := 3; y := 0; z := 0 |}) in *.
  set (v0 := {| x := 0; y := 80; z := 0 |}) in *.
  destruct (planetRK2_complete 3 0 (4.0 * PI * PI) 0.1 p0 v0 0 0
              [Some 0; None; None] [Some p0; None; None] [Some v0; None; None]
              ltac:(lia) (sized_allocated 3 _ _ _ ltac:(lia)) eq_refl eq_refl
              ltac:(intros; apply never_collides_radius_0))
    as (st' & Hrun & _ & _ & _ & Hupto).
  destruct (H st' _ Hrun 0%nat ltac:(cbn; lia)) as (p & v & Hp & Hv & _ & Hv1).
  destruct (Hupto 0%nat ltac:(lia)) as [Hp0 Hv0].
  destruct (Hupto 1%nat ltac:(lia)) as [_ Hv1'].
  rewrite Hp in Hp0; rewrite Hv in Hv0.
  cbn [orbit_state fst snd] in Hp0, Hv0, Hv1'.
  injection Hp0 as ->. injection Hv0 as ->.
  change (0 + 1)%nat with 1%nat in Hv1. rewrite Hv1 in Hv1'.
  rewrite rk2_step_velocity in Hv1'.
  assert (E : x (vsub v0 (vscale 0.1 (accel 0 (4.0 * PI * PI) (half_step 0.1 p0 v0))))
            = x (vadd v0 (vscale 0.1 (accel 0 (4.0 * PI * PI) (half_step 0.1 p0 v0)))))
    by congruence.
  clear - E. unfold vsub, vadd, vscale, accel in E. cbn [x y z] in E.
  set (r := hypot3 (half_step 0.1 p0 v0)) in E.
  assert (Hr : 0 < r).
  { unfold r, hypot3, half_step, vadd, vscale, p0, v0; cbn [x y z].
    apply sqrt_lt_R0. lra. }
  assert (Hm : 0 < 4.0 * PI * PI / r ^ 3).
  { apply Rdiv_lt_0_compat; [apply GM_pos | apply pow_lt; exact Hr]. }
  replace (-3.75 * (4.0 * PI * PI) * 0 ^ 2 * z (half_step 0.1 p0 v0) ^ 2 / r ^ 7)
    with 0 in E by (unfold Rdiv; ring).
  replace (0.75 * (4.0 * PI * PI) * 0 ^ 2 / r ^ 5) with 0 in E
    by (unfold Rdiv; ring).
  unfold half_step, vadd, vscale, p0, v0 in E; cbn [x y z] in E.
  lra.
Qed.

Lemma point_mass_run_3 :
  exists st',
    planetRK2 3 0 0 (4.0 * PI * PI) 0.1
      [Some 0; None; None]
      [Some {| x := 3; y := 0; z := 0 |}; None; None]
      [Some {| x := 0; y := 80; z := 0 |}; None; None] 0
    = Some (st', {| num := 2; error := 0 |}).
Proof.
  destruct (planetRK2_complete 3 0 (4.0 * PI * PI) 0.1
              {| x := 3; y := 0; z := 0 |} {| x := 0; y := 80; z := 0 |} 0 0
              [Some 0; None; None]
              [Some {| x := 3; y := 0; z := 0 |}; None; None]
              [Some {| x := 0; y := 80; z := 0 |}; None; None]
              ltac:(lia) (sized_allocated 3 _ _ _ ltac:(lia)) eq_refl eq_refl
              ltac:(intros; apply never_collides_radius_0))
    as (st' & Hrun & _).
  exists st'. exact Hrun.
Qed.

Lemma velocity_update_witness :
  exists st',
    planetRK2 3 0 0 (4.0 * PI * PI) 0.1
      [Some 0; None; None]
      [Some {| x := 3; y := 0; z := 0 |}; None; None]
      [Some {| x := 0; y := 80; z := 0 |}; None; None] 0
    = Some (st', {| num := 2; error := 0 |}) /\
    velocity_rule vadd 0 (4.0 * PI * PI) 0.1 st' 0 /\
    velocity_rule vadd 0 (4.0 * PI * PI) 0.1 st' 1.
Proof.
  destruct point_mass_run_3 as [st' Hrun].
  exists st'. split; [exact Hrun|].
  split;
    apply (velocity_update 3 0 (4.0 * PI * PI) 0.1
             [Some 0; None; None]
             [Some {| x := 3; y := 0; z := 0 |}; None; None]
             [Some {| x := 0; y := 80; z := 0 |}; None; None]
             {| x := 3; y := 0; z := 0 |} {| x := 0; y := 80; z := 0 |} 0 0
             st' {| num := 2; error := 0 |});
    first [ exact Hrun | reflexivity | apply (sized_allocated 3); lia
          | cbn; lia ].
Defined.

(** * calculateOrbit *)

Lemma fallback_eq : fallback = ([Some fallback_point], 0).
Proof.
  unfold fallback, samplePlanarOrbit, fallback_point, push.
  cbn [seq fold_left app INR].
  replace (0 / 1 * 2 * PI) with 0 by (unfold Rdiv; ring).
  rewrite cos_0, sin_0. repeat f_equal; lra.
Qed.

Lemma norm_hypot3 (p : Vec3) :
  sqrt (x p ^ 2 + y p ^ 2 + z p ^ 2) = hypot3 p.
Proof. unfold hypot3. f_equal. ring. Qed.

Lemma timeStep_pos : ~ timeStep <= 0.
Proof. unfold timeStep; lra. Qed.

Section Orbit.

Variables (finalTime : R) (p0 v0 : Vec3) (attractorRadius : R).

Lemma energy_eq :
  0 < hypot3 p0 ->
  0.5 * 1 * hypot3 v0 ^ 2
  + 1 * (- (4.0 * PI * PI) / hypot3 p0
         + 0.75 * (4.0 * PI * PI) * attractorRadius ^ 2 * z p0 ^ 2
           / hypot3 p0 ^ 5
         - 0.25 * (4.0 * PI * PI) * attractorRadius ^ 2 / hypot3 p0 ^ 3)
  = claimed_energy p0 v0 attractorRadius.
Proof.
  intros Hr. unfold claimed_energy. decimals. field. lra.
Qed.

(** [calculateOrbit] with its guards in order. *)
Lemma calculateOrbit_unfold :
  calculateOrbit finalTime p0 v0 attractorRadius
  = if (numPoints_of finalTime <=? 0)%nat then fallback
    else if negb (Z.of_nat (numPoints_of finalTime) <=? max_array_length)%Z
    then fallback
    else if Rleb (hypot3 p0) 0 || Rleb (hypot3 v0) 0 then fallback
    else match integration finalTime p0 v0 attractorRadius with
         | Some (st', res) =>
             if (num res <? 2)%nat then fallback
             else (slice0 (pos st') (num res + 1),
                   claimed_energy p0 v0 attractorRadius)
         | None => fallback
         end.
Proof.
  unfold calculateOrbit, calculateOrbit_try. cbv zeta.
  fold (numPoints_of finalTime).
  destruct (numPoints_of finalTime <=? 0)%nat eqn:En; [reflexivity|].
  destruct (Rleb timeStep 0) eqn:Et;
    [apply Rleb_true in Et; destruct (timeStep_pos Et)|].
  cbn [orb]. unfold new_Array.
  destruct (Z.of_nat (numPoints_of finalTime) <=? max_array_length)%Z
    eqn:Emax; [|reflexivity].
  cbn [bind negb].
  rewrite !norm_hypot3.
  destruct (Rleb (hypot3 p0) 0) eqn:Er; [reflexivity|].
  destruct (Rleb (hypot3 v0) 0) eqn:Ev; [reflexivity|].
  apply Rleb_false in Er. cbn [orb].
  fold (integration finalTime p0 v0 attractorRadius).
  destruct (integration finalTime p0 v0 attractorRadius)
    as [[st' res]|] eqn:Erun; [|reflexivity].
  cbn [bind].
  destruct (num res <? 2)%nat eqn:Enum; [reflexivity|].
  rewrite energy_eq by lra. reflexivity.
Qed.

(** The two ways [calculateOrbit] returns. *)
Lemma calculateOrbit_cases :
  calculateOrbit finalTime p0 v0 attractorRadius = fallback
  \/
  exists st' res,
    (1 <= numPoints_of finalTime)%nat /\
    (Z.of_nat (numPoints_of finalTime) <= max_array_length)%Z /\
    0 < hypot3 p0 /\ 0 < hypot3 v0 /\
    integration finalTime p0 v0 attractorRadius = Some (st', res) /\
    (2 <= num res)%nat /\
    calculateOrbit finalTime p0 v0 attractorRadius
    = (slice0 (pos st') (num res + 1),
       claimed_energy p0 v0 attractorRadius).
Proof.
  rewrite calculateOrbit_unfold.
  destruct (numPoints_of finalTime <=? 0)%nat eqn:En; [left; reflexivity|].
  apply Nat.leb_gt in En.
  destruct (Z.of_nat (numPoints_of finalTime) <=? max_array_length)%Z
    eqn:Emax; [|left; reflexivity].
  apply Z.leb_le in Emax. cbn [negb].
  destruct (Rleb (hypot3 p0) 0) eqn:Er; [left; reflexivity|].
  destruct (Rleb (hypot3 v0) 0) eqn:Ev; [left; reflexivity|].
  apply Rleb_false in Er, Ev. cbn [orb].
  destruct (integration finalTime p0 v0 attractorRadius)
    as [[st' res]|] eqn:Erun; [|left; reflexivity].
  destruct (num res <? 2)%nat eqn:Enum; [left; reflexivity|].
  apply Nat.ltb_ge in Enum.
  right. exists st', res. repeat split; auto; lra.
Qed.

(** The result when the guards pass and the loop reports [res]. *)
Lemma calculateOrbit_integrated (st' : Store) (res : Result) :
  (1 <= numPoints_of finalTime)%nat ->
  (Z.of_nat (numPoints_of finalTime) <= max_array_length)%Z ->
  0 < hypot3 p0 -> 0 < hypot3 v0 ->
  integration finalTime p0 v0 attractorRadius = Some (st', res) ->
  calculateOrbit finalTime p0 v0 attractorRadius
  = if (num res <? 2)%nat then fallback
    else (slice0 (pos st') (num res + 1),
          claimed_energy p0 v0 attractorRadius).
Proof.
  intros Hn Hmax Hr Hv Hrun. rewrite calculateOrbit_unfold, Hrun.
  assert (E1 : (numPoints_of finalTime <=? 0)%nat = false)
    by (apply Nat.leb_gt; lia).
  assert (E2 : (Z.of_nat (numPoints_of finalTime) <=? max_array_length)%Z
               = true)
    by (apply Z.leb_le; exact Hmax).
  assert (E3 : Rleb (hypot3 p0) 0 = false) by (apply Rleb_false; lra).
  assert (E4 : Rleb (hypot3 v0) 0 = false) by (apply Rleb_false; lra).
  rewrite E1, E2, E3, E4. reflexivity.
Qed.

(** Whenever the loop reports fewer than two points, the result is the
    fallback, whatever the guards decided. *)
Lemma calculateOrbit_short (st' : Store) (res : Result) :
  integration finalTime p0 v0 attractorRadius = Some (st', res) ->
  (num res < 2)%nat ->
  calculateOrbit finalTime p0 v0 attractorRadius = fallback.
Proof.
  intros Hrun Hnum. rewrite calculateOrbit_unfold, Hrun.
  assert (E : (num res <? 2)%nat = true) by (apply Nat.ltb_lt; exact Hnum).
  rewrite E.
  destruct (numPoints_of finalTime <=? 0)%nat; [reflexivity|].
  destruct (negb _); [reflexivity|].
  destruct (_ || _); reflexivity.
Qed.

(** With at least two points requested the loop returns, and reports
    either a complete run or the first colliding index; the positions up
    to the reported index are the iterated steps. *)
Lemma integration_total :
  (2 <= numPoints_of finalTime)%nat ->
  exists st' res,
    integration finalTime p0 v0 attractorRadius = Some (st', res) /\
    length (pos st') = numPoints_of finalTime /\
    (num res <= numPoints_of finalTime - 1)%nat /\
    (forall k, (k <= num res)%nat ->
       aget (pos st') k
       = Some (fst (orbit_state attractorRadius (4.0 * PI * PI) timeStep
                      p0 v0 k))) /\
    ((error res = 0%nat /\ num res = (numPoints_of finalTime - 1)%nat)
     \/ (error res = 1%nat /\ (num res <= numPoints_of finalTime - 2)%nat /\
         collides_at attractorRadius (4.0 * PI * PI) timeStep p0 v0
           (num res))).
Proof.
  intros Hn. unfold integration.
  destruct (planetRK2_spec (numPoints_of finalTime) attractorRadius
              (4.0 * PI * PI) timeStep 0 0 _ _ _ p0 v0 Hn
              (sized_allocated (numPoints_of finalTime) p0 v0 0 ltac:(lia))
              (aget_aset_eq _ _ _) (aget_aset_eq _ _ _))
    as (st' & res & Hrun & (_ & Hlen & _) & Hp & Hv & _ & _ & Hcases).
  exists st', res. split; [exact Hrun|]. split; [exact Hlen|].
  assert (Hsteps : forall k, (k < num res)%nat ->
                     stepped attractorRadius (4.0 * PI * PI) timeStep st' k).
  { destruct Hcases as [(_ & Hnm & Hsteps)|(_ & _ & Hsteps & _)];
      intros k Hk; apply Hsteps; lia. }
  pose proof (stepped_orbit attractorRadius (4.0 * PI * PI) timeStep p0 v0
                st' (num res) Hp Hv Hsteps) as Horb.
  split; [destruct Hcases as [(_ & Hnm & _)|(_ & Hle & _)]; lia|].
  split; [intros k Hk; apply (Horb k Hk)|].
  destruct Hcases as [(He & Hnm & _)|(He & Hle & _ & (p & Hpp & Hlt & _))].
  - left; auto.
  - right. split; [exact He|]. split; [exact Hle|].
    destruct (Horb (num res) (Nat.le_refl _)) as (Hpn & _).
    unfold collides_at. rewrite Hpn in Hpp. injection Hpp as <-. exact Hlt.
Qed.

(** A reported count of at least two means at least two points were
    requested. *)
Lemma integration_requested (st' : Store) (res : Result) :
  integration finalTime p0 v0 attractorRadius = Some (st', res) ->
  (2 <= num res)%nat -> (2 <= numPoints_of finalTime)%nat.
Proof.
  intros Hrun Hnum.
  destruct (le_lt_dec 2 (numPoints_of finalTime)) as [H|H]; [exact H|exfalso].
  unfold integration, planetRK2 in Hrun.
  assert (E : (numPoints_of finalTime <=? 1)%nat = true)
    by (apply Nat.leb_le; lia).
  rewrite E in Hrun. injection Hrun as _ <-. cbn [num] in Hnum. lia.
Qed.

End Orbit.

Section OrbitRuns.

Variables (finalTime : R) (p0 v0 : Vec3) (attractorRadius : R).

Hypothesis Hmax : (Z.of_nat (numPoints_of finalTime) <= max_array_length)%Z.
Hypothesis Hr : 0 < hypot3 p0.
Hypothesis Hv : 0 < hypot3 v0.

(** No index collides: the trajectory is the whole position array. *)
Lemma calculateOrbit_complete :
  (3 <= numPoints_of finalTime)%nat ->
  (forall k, (k <= numPoints_of finalTime - 2)%nat ->
     ~ collides_at attractorRadius (4.0 * PI * PI) timeStep p0 v0 k) ->
  exists traj,
    calculateOrbit finalTime p0 v0 attractorRadius
    = (traj, claimed_energy p0 v0 attractorRadius) /\
    length traj = numPoints_of finalTime /\
    forall k, (k < numPoints_of finalTime)%nat ->
      aget traj k
      = Some (fst (orbit_state attractorRadius (4.0 * PI * PI) timeStep
                     p0 v0 k)).
Proof.
  intros Hn Hfree.
  destruct (planetRK2_complete (numPoints_of finalTime) attractorRadius
              (4.0 * PI * PI) timeStep p0 v0 0 0 _ _ _ ltac:(lia)
              (sized_allocated (numPoints_of finalTime) p0 v0 0 ltac:(lia))
              (aget_aset_eq _ _ _) (aget_aset_eq _ _ _) Hfree)
    as (st' & Hrun & (_ & Hlen & _) & _ & _ & Hupto).
  exists (slice0 (pos st') (numPoints_of finalTime - 1 + 1)).
  rewrite (calculateOrbit_integrated finalTime p0 v0 attractorRadius st' _
             ltac:(lia) Hmax Hr Hv Hrun).
  cbn [num].
  assert (E : (numPoints_of finalTime - 1 <? 2)%nat = false)
    by (apply Nat.ltb_ge; lia).
  rewrite E. split; [reflexivity|]. split.
  - rewrite length_slice0; lia.
  - intros k Hk. rewrite aget_slice0 by lia. apply Hupto; lia.
Qed.


End OrbitRuns.

(** ** Point counts *)

Lemma Math_round_eq (a : R) (k : Z) :
  IZR k - 0.5 <= a < IZR k + 0.5 -> Math_round a = k.
Proof.
  intros H. unfold Math_round. symmetry. apply Int_part_spec. lra.
Qed.

Lemma numPoints_of_eq (finalTime : R) (k : Z) :
  IZR k - 0.5 <= finalTime / timeStep < IZR k + 0.5 ->
  numPoints_of finalTime = Z.abs_nat k.
Proof.
  intros H. unfold numPoints_of. now rewrite (Math_round_eq _ k H).
Qed.

Lemma numPoints_of_1 : numPoints_of 1 = 10%nat.
Proof. apply (numPoints_of_eq 1 10). unfold timeStep. lra. Qed.

Lemma hypot3_pos (p : Vec3) :
  0 < x p * x p + y p * y p + z p * z p -> 0 < hypot3 p.
Proof. intros H. unfold hypot3. apply sqrt_lt_R0. exact H. Qed.

Lemma fallback_length (tr : Arr Vec3) (e : R) :
  (2 <= length tr)%nat -> (tr, e) <> fallback.
Proof.
  rewrite fallback_eq. intros H E. injection E as -> _. cbn in H. lia.
Qed.

(** A circular-looking start around a point mass, integrated for ten
    points. *)
Lemma point_mass_orbit_1 :
  exists traj,
    calculateOrbit 1 {| x := 1; y := 0; z := 0 |} {| x := 0; y := 1; z := 0 |} 0
    = (traj, claimed_energy {| x := 1; y := 0; z := 0 |}
               {| x := 0; y := 1; z := 0 |} 0) /\
    length traj = 10%nat /\
    forall k, (k < 10)%nat ->
      aget traj k
      = Some (fst (orbit_state 0 (4.0 * PI * PI) timeStep
                     {| x := 1; y := 0; z := 0 |}
                     {| x := 0; y := 1; z := 0 |} k)).
Proof.
  rewrite <- numPoints_of_1.
  apply calculateOrbit_complete.
  - rewrite numPoints_of_1. unfold max_array_length. lia.
  - apply hypot3_pos; cbn [x y z]; lra.
  - apply hypot3_pos; cbn [x y z]; lra.
  - rewrite numPoints_of_1. lia.
  - intros k _. apply never_collides_radius_0.
Qed.

(** The result differs from the fallback exactly when every guard passed
    and the loop reported at least two points, that is when the return of
    line 81 was taken. *)
Lemma non_fallback_iff (finalTime : R) (p0 v0 : Vec3) (attractorRadius : R) :
  calculateOrbit finalTime p0 v0 attractorRadius <> fallback
  <->
  exists st' res,
    (1 <= numPoints_of finalTime)%nat /\
    (Z.of_nat (numPoints_of finalTime) <= max_array_length)%Z /\
    0 < hypot3 p0 /\ 0 < hypot3 v0 /\
    integration finalTime p0 v0 attractorRadius = Some (st', res) /\
    (2 <= num res)%nat.
Proof.
  split.
  - intros Hnf.
    destruct (calculateOrbit_cases finalTime p0 v0 attractorRadius)
      as [Hfb|(st' & res & Hn & Hmax & Hr & Hv & Hrun & Hnum & _)].
    + contradiction.
    + exists st', res. auto 6.
  - intros (st' & res & Hn & Hmax & Hr & Hv & Hrun & Hnum).
    rewrite (calculateOrbit_integrated finalTime p0 v0 attractorRadius
               st' res Hn Hmax Hr Hv Hrun).
    assert (E : (num res <? 2)%nat = false) by (apply Nat.ltb_ge; exact Hnum).
    rewrite E. apply fallback_length.
    pose proof (integration_requested finalTime p0 v0 attractorRadius
                  st' res Hrun Hnum) as Hn2.
    destruct (integration_total finalTime p0 v0 attractorRadius Hn2)
      as (st'' & res' & Hrun' & Hlen & Hle & _).
    rewrite Hrun in Hrun'. injection Hrun' as <- <-.
    rewrite length_slice0; lia.
Qed.

(** * The energy (C1) *)

(** C1: on every input whose result is not the fallback, the returned
    energy is [0.5 v0^2 - GM/r0 + (0.75 GM a^2 z0^2)/r0^5
    - (0.25 GM a^2)/r0^3] with [GM = 4 pi^2]; it is a function of the
    initial state and the attractor radius alone. *)
Theorem energy_of_integrated_orbit (finalTime : R) (p0 v0 : Vec3)
    (attractorRadius : R) :
  calculateOrbit finalTime p0 v0 attractorRadius <> fallback ->
  snd (calculateOrbit finalTime p0 v0 attractorRadius)
  = 0.5 * hypot3 v0 ^ 2 - 4 * PI ^ 2 / hypot3 p0
    + (0.75 * (4 * PI ^ 2) * attractorRadius ^ 2 * z p0 ^ 2) / hypot3 p0 ^ 5
    - (0.25 * (4 * PI ^ 2) * attractorRadius ^ 2) / hypot3 p0 ^ 3.
Proof.
  intros Hnf.
  destruct (calculateOrbit_cases finalTime p0 v0 attractorRadius)
    as [Hfb|(st' & res & _ & _ & _ & _ & _ & _ & Heq)].
  - contradiction.
  - rewrite Heq. reflexivity.
Qed.

Lemma energy_of_integrated_orbit_witness :
  snd (calculateOrbit 1 {| x := 1; y := 0; z := 0 |}
         {| x := 0; y := 1; z := 0 |} 0)
  = 0.5 * hypot3 {| x := 0; y := 1; z := 0 |} ^ 2
    - 4 * PI ^ 2 / hypot3 {| x := 1; y := 0; z := 0 |}
    + (0.75 * (4 * PI ^ 2) * 0 ^ 2 * 0 ^ 2)
      / hypot3 {| x := 1; y := 0; z := 0 |} ^ 5
    - (0.25 * (4 * PI ^ 2) * 0 ^ 2) / hypot3 {| x := 1; y := 0; z := 0 |} ^ 3.
Proof.
  apply (energy_of_integrated_orbit 1 {| x := 1; y := 0; z := 0 |}
           {| x := 0; y := 1; z := 0 |} 0).
  destruct point_mass_orbit_1 as (traj & Heq & Hlen & _).
  rewrite Heq. apply fallback_length. rewrite Hlen. lia.
Defined.

(** * Planar confinement (C3) *)

Lemma rk2_step_planar (radius GM dt : R) (p v : Vec3) :
  z p = 0 -> z v = 0 ->
  z (fst (rk2_step radius GM dt p v)) = 0 /\
  z (snd (rk2_step radius GM dt p v)) = 0.
Proof.
  intros Hp Hv. unfold rk2_step; cbn [fst snd z].
  rewrite Hp, Hv. split; unfold Rdiv; decimals; ring.
Qed.

Lemma orbit_state_planar (radius GM dt : R) (p0 v0 : Vec3) :
  z p0 = 0 -> z v0 = 0 ->
  forall k, z (fst (orbit_state radius GM dt p0 v0 k)) = 0 /\
            z (snd (orbit_state radius GM dt p0 v0 k)) = 0.
Proof.
  intros Hp Hv. induction k as [|k [IHp IHv]]; cbn [orbit_state].
  - auto.
  - destruct (orbit_state radius GM dt p0 v0 k) as [p v].
    apply rk2_step_planar; assumption.
Qed.

(** The arrays [planetRK2] leaves behind are planar at every index, the
    frozen tail included. *)
Lemma planetRK2_planar (n : nat) (radius GM dt : R) (num0 error0 : nat)
    (t0 : Arr R) (pos0 vel0 : Arr Vec3) (p0 v0 : Vec3)
    (st' : Store) (res : Result) :
  (2 <= n)%nat ->
  sized n {| t := t0; pos := pos0; vel := vel0 |} ->
  aget pos0 0 = Some p0 -> aget vel0 0 = Some v0 ->
  z p0 = 0 -> z v0 = 0 ->
  planetRK2 n num0 radius GM dt t0 pos0 vel0 error0 = Some (st', res) ->
  forall k, (k <= n - 1)%nat ->
    exists p v,
      aget (pos st') k = Some p /\ aget (vel st') k = Some v /\
      z p = 0 /\ z v = 0.
Proof.
  intros Hn Hsz Hp Hv Hzp Hzv Hrun k Hk.
  destruct (planetRK2_spec n radius GM dt num0 error0 t0 pos0 vel0 p0 v0
              Hn Hsz Hp Hv)
    as (st'' & res' & Hrun' & _ & Hp' & Hv' & _ & _ & Hcases).
  rewrite Hrun in Hrun'. injection Hrun' as <- <-.
  pose proof (orbit_state_planar radius GM dt p0 v0 Hzp Hzv) as Hplanar.
  destruct Hcases as [(_ & Hnum & Hsteps)|(_ & Hle & Hsteps & Hcol)].
  - destruct (stepped_orbit radius GM dt p0 v0 st' (n - 1) Hp' Hv' Hsteps
                k Hk) as (Hpk & Hvk & _).
    do 2 eexists. split; [exact Hpk|]. split; [exact Hvk|]. apply Hplanar.
  - destruct (le_lt_dec k (num res)) as [Hle'|Hgt].
    + destruct (stepped_orbit radius GM dt p0 v0 st' (num res) Hp' Hv' Hsteps
                  k Hle') as (Hpk & Hvk & _).
      do 2 eexists. split; [exact Hpk|]. split; [exact Hvk|]. apply Hplanar.
    + destruct Hcol as (pc & Hpc & _ & Hfrozen).
      destruct (stepped_orbit radius GM dt p0 v0 st' (num res) Hp' Hv' Hsteps
                  (num res) (Nat.le_refl _)) as (Hpn & _).
      rewrite Hpn in Hpc. injection Hpc as <-.
      destruct (Hfrozen k ltac:(lia)) as [Hpk Hvk].
      do 2 eexists. split; [exact Hpk|]. split; [exact Hvk|].
      split; [apply Hplanar | cbn [zero3 z]; lra].
Qed.

(** ** Steps without a division by zero *)

Lemma hypot3_nonzero (p : Vec3) : x p <> 0 \/ y p <> 0 -> hypot3 p <> 0.
Proof.
  intros H. apply Rgt_not_eq, hypot3_pos.
  pose proof (Rle_0_sqr (x p)) as Hx. pose proof (Rle_0_sqr (y p)) as Hy.
  pose proof (Rle_0_sqr (z p)) as Hz. unfold Rsqr in Hx, Hy, Hz.
  destruct H as [H|H].
  - assert (0 < x p * x p) by (apply Rsqr_pos_lt in H; exact H). lra.
  - assert (0 < y p * y p) by (apply Rsqr_pos_lt in H; exact H). lra.
Qed.

(** From a position with y = 0 the first step moves y by [dt] times the
    velocity, whatever the force. *)
Lemma rk2_step_y_start (radius GM dt : R) (p v : Vec3) :
  y p = 0 -> y (fst (rk2_step radius GM dt p v)) = dt * y v.
Proof.
  intros Hy. unfold rk2_step. cbv zeta. cbn [fst x y z]. rewrite Hy.
  unfold Rdiv. ring.
Qed.

(** A start on the x axis with a velocity along y: the first three
    positions are computed without a division by zero. *)
Lemma launch_defined (radius GM dt a b : R) (k : nat) :
  a <> 0 -> b <> 0 -> dt <> 0 -> (k <= 2)%nat ->
  point_defined radius GM dt {| x := a; y := 0; z := 0 |}
    {| x := 0; y := b; z := 0 |} k.
Proof.
  intros Ha Hb Hdt Hk. split.
  - intros j Hj. destruct j as [|[|j]]; [| |lia].
    + cbn [orbit_state fst]. apply hypot3_nonzero. left. exact Ha.
    + cbn [orbit_state]. apply hypot3_nonzero. right.
      rewrite rk2_step_y_start by reflexivity. cbn [y].
      apply Rmult_integral_contrapositive_currified; assumption.
  - intros j Hj. assert (j = 0)%nat as -> by lia.
    cbn [orbit_state fst snd]. unfold half_radius.
    apply hypot3_nonzero. left. cbn [x]. lra.
Qed.

Lemma numPoints_of_0_5 : numPoints_of 0.5 = 5%nat.
Proof. apply (numPoints_of_eq 0.5 5). unfold timeStep. lra. Qed.

(** A start at (0.5, 0, 0) with the velocity (-10, 0, 0): the half-step
    position of the first step, [0.5 + (0.1 * -10) / 2], is the origin. *)
Lemma plunge_half_radius_0 :
  half_radius timeStep {| x := 0.5; y := 0; z := 0 |}
    {| x := -10; y := 0; z := 0 |} = 0.
Proof.
  unfold half_radius. cbn [x y z].
  replace (0.5 + timeStep * -10 / 2.0) with 0 by (unfold timeStep; lra).
  replace (0 + timeStep * 0 / 2.0) with 0 by (unfold timeStep; lra).
  rewrite hypot3_x_axis. apply Rabs_R0.
Qed.

(** C3 as stated fails for the start (0.5, 0, 0), (-10, 0, 0) around a
    point attractor, integrated for 5 points: the half-step radius of the
    first step is 0, [mpri] is [GM / 0], and the position of index 2 is
    computed from it: in the program its z is NaN, not 0. *)
Lemma planar_as_stated_fails :
  ~ planar_as_stated 0.5 {| x := 0.5; y := 0; z := 0 |}
      {| x := -10; y := 0; z := 0 |} 0.
Proof.
  intros H.
  assert (Hmax : (Z.of_nat (numPoints_of 0.5) <= max_array_length)%Z)
    by (rewrite numPoints_of_0_5; unfold max_array_length; lia).
  assert (Hr : 0 < hypot3 {| x := 0.5; y := 0; z := 0 |})
    by (apply hypot3_pos; cbn [x y z]; lra).
  assert (Hv : 0 < hypot3 {| x := -10; y := 0; z := 0 |})
    by (apply hypot3_pos; cbn [x y z]; lra).
  destruct (calculateOrbit_complete 0.5 {| x := 0.5; y := 0; z := 0 |}
              {| x := -10; y := 0; z := 0 |} 0 Hmax Hr Hv)
    as (traj & Heq & Hlen & _).
  { rewrite numPoints_of_0_5. lia. }
  { intros k _. apply never_collides_radius_0. }
  specialize (H eq_refl eq_refl (Rle_refl 0) 2%nat).
  rewrite Heq in H. cbn [fst] in H. rewrite Hlen, numPoints_of_0_5 in H.
  destruct (H ltac:(lia)) as [[_ Hhalf] _].
  apply (Hhalf 0%nat ltac:(lia)).
  cbn [orbit_state fst snd]. exact plunge_half_radius_0.
Qed.

(** C3, with the condition the counterexample forces: when the initial
    position and velocity have z = 0, every index of the trajectory
    [calculateOrbit] returns whose position is computed without a division
    by zero (no radius of an earlier step and no half-step radius of a step
    before the previous one is 0) holds a point whose z is exactly 0,
    whatever the attractor radius and the duration (the arithmetic is that
    of the real numbers). *)
Theorem planar_orbit_stays_planar (finalTime : R) (p0 v0 : Vec3)
    (attractorRadius : R) :
  z p0 = 0 -> z v0 = 0 ->
  forall k,
    (k < length (fst (calculateOrbit finalTime p0 v0 attractorRadius)))%nat ->
    point_defined attractorRadius (4.0 * PI * PI) timeStep p0 v0 k ->
    exists q,
      aget (fst (calculateOrbit finalTime p0 v0 attractorRadius)) k = Some q /\
      z q = 0.
Proof.
  intros Hp Hv k.
  destruct (calculateOrbit_cases finalTime p0 v0 attractorRadius)
    as [Hfb|(st' & res & _ & _ & _ & _ & Hrun & Hnum & Heq)].
  - rewrite Hfb, fallback_eq; cbn [fst length]. intros Hk _.
    assert (k = 0)%nat as -> by lia.
    exists fallback_point. split; reflexivity.
  - rewrite Heq; cbn [fst].
    pose proof (integration_requested finalTime p0 v0 attractorRadius
                  st' res Hrun Hnum) as Hn.
    destruct (integration_total finalTime p0 v0 attractorRadius Hn)
      as (st'' & res' & Hrun' & Hlen & Hle & Hupto & _).
    rewrite Hrun in Hrun'. injection Hrun' as <- <-.
    rewrite length_slice0 by lia. intros Hk _.
    rewrite aget_slice0 by lia. rewrite (Hupto k) by lia.
    eexists; split; [reflexivity|].
    apply orbit_state_planar; assumption.
Qed.

Lemma planar_orbit_stays_planar_witness :
  exists q,
    aget (fst (calculateOrbit 1 {| x := 1; y := 0; z := 0 |}
                 {| x := 0; y := 1; z := 0 |} 0)) 2 = Some q /\
    z q = 0.
Proof.
  apply (planar_orbit_stays_planar 1 {| x := 1; y := 0; z := 0 |}
           {| x := 0; y := 1; z := 0 |} 0).
  - reflexivity.
  - reflexivity.
  - destruct point_mass_orbit_1 as (traj & Heq & Hlen & _).
    rewrite Heq; cbn [fst]. rewrite Hlen. lia.
  - apply launch_defined; [lra|lra|unfold timeStep; lra|lia].
Defined.

(** * Degenerate inputs (C6) *)

(** C6: when the point count is 0, or the initial position or the initial
    velocity has magnitude at most 0, [calculateOrbit] returns the sampler's
    fallback [samplePlanarOrbit 1 0.1], which is the single point
    (0.1, 0, 0), with energy 0. *)
Theorem degenerate_input_falls_back (finalTime : R) (p0 v0 : Vec3)
    (attractorRadius : R) :
  (numPoints_of finalTime <= 0)%nat \/ hypot3 p0 <= 0 \/ hypot3 v0 <= 0 ->
  calculateOrbit finalTime p0 v0 attractorRadius = (samplePlanarOrbit 1 0.1, 0)
  /\ samplePlanarOrbit 1 0.1 = [Some {| x := 0.1; y := 0; z := 0 |}].
Proof.
  intros H. split; [|exact (f_equal fst fallback_eq)].
  change (samplePlanarOrbit 1 0.1, 0) with fallback.
  rewrite calculateOrbit_unfold.
  destruct (numPoints_of finalTime <=? 0)%nat eqn:En; [reflexivity|].
  apply Nat.leb_gt in En.
  destruct (negb _); [reflexivity|].
  destruct H as [H|[H|H]]; [lia| |].
  - apply Rleb_true in H. rewrite H. reflexivity.
  - apply Rleb_true in H. rewrite H, orb_true_r. reflexivity.
Qed.

Lemma degenerate_input_falls_back_witness :
  calculateOrbit 1 {| x := 0; y := 0; z := 0 |} {| x := 0; y := 1; z := 0 |} 0.1
  = (samplePlanarOrbit 1 0.1, 0)
  /\ samplePlanarOrbit 1 0.1 = [Some {| x := 0.1; y := 0; z := 0 |}].
Proof.
  apply (degenerate_input_falls_back 1 {| x := 0; y := 0; z := 0 |}
           {| x := 0; y := 1; z := 0 |} 0.1).
  right; left. rewrite hypot3_x_axis, Rabs_R0. apply Rle_refl.
Defined.

(** * The planar sampler (C8) *)

Lemma fold_push {A : Type} (g : nat -> A) (l : list nat) (acc : Arr A) :
  fold_left (fun out i => push out (g i)) l acc
  = acc ++ map (fun i => Some (g i)) l.
Proof.
  revert acc; induction l as [|i l IH]; intros acc; cbn [fold_left map].
  - now rewrite app_nil_r.
  - rewrite IH. unfold push. now rewrite <- app_assoc.
Qed.

Lemma samplePlanarOrbit_map (samples : nat) (radius : R) :
  samplePlanarOrbit samples radius
  = map (fun i => Some (circle_point radius (INR i / INR samples * 2 * PI)))
      (seq 0 samples).
Proof. unfold samplePlanarOrbit. cbv zeta. now rewrite fold_push. Qed.

Lemma hypot3_circle_point (radius theta : R) :
  hypot3 (circle_point radius theta) = Rabs radius.
Proof.
  unfold hypot3, circle_point; cbn [x y z].
  replace (radius * cos theta * (radius * cos theta)
           + radius * sin theta * (radius * sin theta) + 0 * 0)
    with (Rsqr radius * (Rsqr (sin theta) + Rsqr (cos theta)))
    by (unfold Rsqr; ring).
  rewrite sin2_cos2, Rmult_1_r. apply sqrt_Rsqr_abs.
Qed.

(** C8: for [samples >= 1], [samplePlanarOrbit samples radius] has exactly
    [samples] points; the [k]-th is
    [(radius cos (2 pi k/samples), radius sin (2 pi k/samples), 0)], which
    lies in the plane z = 0 at distance [|radius|] from the origin; the
    angles lie in [0, 2 pi) and consecutive ones differ by
    [2 pi / samples]. *)
Theorem samplePlanarOrbit_circle (samples : nat) (radius : R) :
  (1 <= samples)%nat ->
  length (samplePlanarOrbit samples radius) = samples /\
  forall k, (k < samples)%nat ->
    exists q,
      aget (samplePlanarOrbit samples radius) k = Some q /\
      q = {| x := radius * cos (2 * PI * INR k / INR samples);
             y := radius * sin (2 * PI * INR k / INR samples);
             z := 0 |} /\
      z q = 0 /\
      hypot3 q = Rabs radius /\
      0 <= angle samples k < 2 * PI /\
      angle samples (S k) - angle samples k = 2 * PI / INR samples.
Proof.
  intros Hs. rewrite samplePlanarOrbit_map.
  split; [now rewrite length_map, length_seq|].
  intros k Hk.
  assert (Hpos : 0 < INR samples) by (apply lt_0_INR; lia).
  assert (Hk' : INR k < INR samples) by (apply lt_INR; exact Hk).
  assert (Hk0 : 0 <= INR k) by apply pos_INR.
  pose proof PI_RGT_0 as Hpi.
  exists (circle_point radius (angle samples k)).
  split; [|split; [reflexivity|split; [reflexivity|
           split; [apply hypot3_circle_point|split]]]].
  - unfold aget. rewrite nth_error_map, nth_error_seq.
    assert (E : (k <? samples)%nat = true) by (apply Nat.ltb_lt; exact Hk).
    rewrite E. cbn [option_map Nat.add]. unfold angle.
    replace (INR k / INR samples * 2 * PI)
      with (2 * PI * INR k / INR samples) by (field; lra).
    reflexivity.
  - unfold angle. split.
    + apply Rmult_le_pos; [nra | left; apply Rinv_0_lt_compat; exact Hpos].
    + apply (Rmult_lt_reg_r (INR samples)); [exact Hpos|].
      unfold Rdiv. rewrite Rmult_assoc, Rinv_l by lra. nra.
  - unfold angle. rewrite S_INR. field. lra.
Qed.

Lemma samplePlanarOrbit_circle_witness :
  length (samplePlanarOrbit 4 2) = 4%nat /\
  forall k, (k < 4)%nat ->
    exists q,
      aget (samplePlanarOrbit 4 2) k = Some q /\
      q = {| x := 2 * cos (2 * PI * INR k / INR 4);
             y := 2 * sin (2 * PI * INR k / INR 4);
             z := 0 |} /\
      z q = 0 /\
      hypot3 q = Rabs 2 /\
      0 <= angle 4 k < 2 * PI /\
      angle 4 (S k) - angle 4 k = 2 * PI / INR 4.
Proof.
  apply (samplePlanarOrbit_circle 4 2). lia.
Defined.

(** * Collisions at index 0 or 1 (C9) *)

Lemma integration_collision (finalTime : R) (p0 v0 : Vec3)
    (attractorRadius : R) (c : nat) :
  (c + 2 <= numPoints_of finalTime)%nat ->
  collides_at attractorRadius (4.0 * PI * PI) timeStep p0 v0 c ->
  (forall k, (k < c)%nat ->
     ~ collides_at attractorRadius (4.0 * PI * PI) timeStep p0 v0 k) ->
  exists st',
    integration finalTime p0 v0 attractorRadius
    = Some (st', {| num := c; error := 1 |}).
Proof.
  intros Hc Hcol Hfirst. unfold integration.
  destruct (planetRK2_collision (numPoints_of finalTime) attractorRadius
              (4.0 * PI * PI) timeStep p0 v0 0 0 _ _ _ ltac:(lia)
              (sized_allocated (numPoints_of finalTime) p0 v0 0 ltac:(lia))
              (aget_aset_eq _ _ _) (aget_aset_eq _ _ _) c ltac:(lia)
              Hcol Hfirst)
    as (st' & Hrun & _).
  exists st'. exact Hrun.
Qed.

(** C9: when the first index whose radius is below the attractor radius is
    0 or 1, the step loop reports that index as its count (a count below 2,
    with error flag 1), and [calculateOrbit] returns the single point
    (0.1, 0, 0) with energy 0. *)
Theorem early_collision_falls_back (finalTime : R) (p0 v0 : Vec3)
    (attractorRadius : R) (c : nat) :
  (c < 2)%nat ->
  (c + 2 <= numPoints_of finalTime)%nat ->
  collides_at attractorRadius (4.0 * PI * PI) timeStep p0 v0 c ->
  (forall k, (k < c)%nat ->
     ~ collides_at attractorRadius (4.0 * PI * PI) timeStep p0 v0 k) ->
  (exists st',
     integration finalTime p0 v0 attractorRadius
     = Some (st', {| num := c; error := 1 |})) /\
  calculateOrbit finalTime p0 v0 attractorRadius
  = ([Some {| x := 0.1; y := 0; z := 0 |}], 0).
Proof.
  intros Hc Hn Hcol Hfirst.
  destruct (integration_collision finalTime p0 v0 attractorRadius c
              Hn Hcol Hfirst) as [st' Hrun].
  split; [exists st'; exact Hrun|].
  rewrite (calculateOrbit_short finalTime p0 v0 attractorRadius st' _ Hrun Hc).
  exact fallback_eq.
Qed.

Lemma numPoints_of_0_3 : numPoints_of 0.3 = 3%nat.
Proof. apply (numPoints_of_eq 0.3 3). unfold timeStep. lra. Qed.

Lemma early_collision_falls_back_witness :
  (exists st',
     integration 0.3 {| x := 0.5; y := 0; z := 0 |}
       {| x := 0; y := 1; z := 0 |} 1
     = Some (st', {| num := 0; error := 1 |})) /\
  calculateOrbit 0.3 {| x := 0.5; y := 0; z := 0 |}
    {| x := 0; y := 1; z := 0 |} 1
  = ([Some {| x := 0.1; y := 0; z := 0 |}], 0).
Proof.
  apply (early_collision_falls_back 0.3 {| x := 0.5; y := 0; z := 0 |}
           {| x := 0; y := 1; z := 0 |} 1 0).
  - lia.
  - rewrite numPoints_of_0_3. lia.
  - apply infall_collides_at_0.
  - intros k Hk. lia.
Defined.

(** * Motion along the x axis *)

Lemma hypot3_axis (p : Vec3) : y p = 0 -> z p = 0 -> hypot3 p = Rabs (x p).
Proof.
  destruct p as [a b c]; cbn [x y z]; intros -> ->. apply hypot3_x_axis.
Qed.

Lemma rk2_step_x_axis (radius GM dt a b : R) :
  rk2_step radius GM dt {| x := a; y := 0; z := 0 |} {| x := b; y := 0; z := 0 |}
  = ({| x := a + dt * (b - dt * a * coeff radius GM (Rabs a) / 2);
        y := 0; z := 0 |},
     {| x := b - dt * (a + dt * b / 2)
                 * coeff radius GM (Rabs (a + dt * b / 2));
        y := 0; z := 0 |}).
Proof.
  unfold rk2_step. rewrite hypot3_x_axis.
  replace 2.0 with 2 by lra.
  rewrite (hypot3_axis {| x := _; y := _; z := _ |});
    cbn [x y z]; try (unfold Rdiv; ring).
  unfold coeff, sq.
  f_equal; f_equal; unfold Rdiv; decimals; ring.
Qed.


Lemma GM_le_64 : 4.0 * PI * PI <= 64.
Proof. pose proof PI_4. pose proof PI_RGT_0. nra. Qed.

(** ** A head-on start that is inside the attractor after one step *)

Lemma plunge_collides_at_1 :
  ~ collides_at 0.5 (4.0 * PI * PI) timeStep
      {| x := 1; y := 0; z := 0 |} {| x := -10; y := 0; z := 0 |} 0 /\
  collides_at 0.5 (4.0 * PI * PI) timeStep
    {| x := 1; y := 0; z := 0 |} {| x := -10; y := 0; z := 0 |} 1.
Proof.
  unfold collides_at. cbn [orbit_state]. rewrite rk2_step_x_axis.
  cbn [fst]. rewrite !hypot3_x_axis, Rabs_R1. split; [lra|].
  assert (E : coeff 0.5 (4.0 * PI * PI) 1 = 1.1875 * (4.0 * PI * PI))
    by (unfold coeff; decimals; field).
  rewrite E. pose proof GM_pos. pose proof GM_le_64.
  unfold timeStep. apply Rabs_def1; lra.
Qed.

(** ** An approach that enters the attractor at index 2 *)





Lemma numPoints_of_0_2 : numPoints_of 0.2 = 2%nat.
Proof. apply (numPoints_of_eq 0.2 2). unfold timeStep. lra. Qed.

Lemma numPoints_of_minus_1_25 : numPoints_of (-1.25) = 12%nat.
Proof. apply (numPoints_of_eq (-1.25) (-12)). unfold timeStep. lra. Qed.

(** * Collisions at index 2 or later (C10) *)



(** * The length of a complete trajectory (C5) *)

(** C5 as stated fails: for [finalTime = -1.25] around a point mass the
    trajectory has 12 points, and [round(|finalTime|/0.1) + 1] is 14. *)
Lemma length_as_stated_fails :
  ~ length_as_stated (-1.25) {| x := 1; y := 0; z := 0 |}
      {| x := 0; y := 1; z := 0 |} 0.
Proof.
  intros H. unfold length_as_stated in H.
  rewrite numPoints_of_minus_1_25 in H.
  assert (Hr : 0 < hypot3 {| x := 1; y := 0; z := 0 |})
    by (apply hypot3_pos; cbn [x y z]; lra).
  assert (Hv : 0 < hypot3 {| x := 0; y := 1; z := 0 |})
    by (apply hypot3_pos; cbn [x y z]; lra).
  specialize (H ltac:(lia) ltac:(unfold max_array_length; lia) Hr Hv
                ltac:(intros; apply never_collides_radius_0)).
  destruct (calculateOrbit_complete (-1.25) {| x := 1; y := 0; z := 0 |}
              {| x := 0; y := 1; z := 0 |} 0)
    as (traj & Heq & Hlen & _);
    rewrite ?numPoints_of_minus_1_25;
    try (unfold max_array_length; lia); try assumption.
  { intros; apply never_collides_radius_0. }
  rewrite Heq in H; cbn [fst] in H. rewrite Hlen in H.
  rewrite numPoints_of_minus_1_25 in H.
  assert (E : Math_round (Rabs (-1.25) / 0.1) = 13%Z).
  { apply Math_round_eq. rewrite Rabs_left by lra. lra. }
  rewrite E in H. cbn in H. lia.
Qed.

Lemma numPoints_of_nonneg (finalTime : R) :
  0 <= finalTime ->
  numPoints_of finalTime = Z.to_nat (Math_round (Rabs finalTime / 0.1)).
Proof.
  intros H. rewrite Rabs_pos_eq by exact H.
  unfold numPoints_of, timeStep. rewrite Zabs2Nat.abs_nat_nonneg; [reflexivity|].
  unfold Math_round.
  destruct (base_Int_part (finalTime / 0.1 + 0.5)) as [_ Hlow].
  assert (Hq : 0 <= finalTime / 0.1).
  { apply Rmult_le_pos; [exact H|]. left. apply Rinv_0_lt_compat. lra. }
  assert (Hlt : IZR (-1) < IZR (Int_part (finalTime / 0.1 + 0.5))) by lra.
  apply lt_IZR in Hlt. lia.
Qed.

(** C5, amended: when the guards pass, the point count
    [N = |round(finalTime / 0.1)|] is at least 3 and a valid array length,
    and no index collides, the trajectory has exactly [N] points (not
    [N + 1]); for [finalTime >= 0], [N] is [round(|finalTime| / 0.1)]. *)
Theorem complete_trajectory_length (finalTime : R) (p0 v0 : Vec3)
    (attractorRadius : R) :
  (3 <= numPoints_of finalTime)%nat ->
  (Z.of_nat (numPoints_of finalTime) <= max_array_length)%Z ->
  0 < hypot3 p0 -> 0 < hypot3 v0 ->
  (forall k, (k <= numPoints_of finalTime - 2)%nat ->
     ~ collides_at attractorRadius (4.0 * PI * PI) timeStep p0 v0 k) ->
  length (fst (calculateOrbit finalTime p0 v0 attractorRadius))
  = Z.abs_nat (Math_round (finalTime / 0.1)) /\
  (0 <= finalTime ->
   length (fst (calculateOrbit finalTime p0 v0 attractorRadius))
   = Z.to_nat (Math_round (Rabs finalTime / 0.1))).
Proof.
  intros Hn Hmax Hr Hv Hfree.
  destruct (calculateOrbit_complete finalTime p0 v0 attractorRadius
              Hmax Hr Hv Hn Hfree) as (traj & Heq & Hlen & _).
  rewrite Heq; cbn [fst]. rewrite Hlen. split; [reflexivity|].
  apply numPoints_of_nonneg.
Qed.

Lemma complete_trajectory_length_witness :
  length (fst (calculateOrbit 1 {| x := 1; y := 0; z := 0 |}
                 {| x := 0; y := 1; z := 0 |} 0))
  = Z.abs_nat (Math_round (1 / 0.1)) /\
  (0 <= 1 ->
   length (fst (calculateOrbit 1 {| x := 1; y := 0; z := 0 |}
                  {| x := 0; y := 1; z := 0 |} 0))
   = Z.to_nat (Math_round (Rabs 1 / 0.1))).
Proof.
  apply (complete_trajectory_length 1 {| x := 1; y := 0; z := 0 |}
           {| x := 0; y := 1; z := 0 |} 0).
  - rewrite numPoints_of_1. lia.
  - rewrite numPoints_of_1. unfold max_array_length. lia.
  - apply hypot3_pos; cbn [x y z]; lra.
  - apply hypot3_pos; cbn [x y z]; lra.
  - intros k _. apply never_collides_radius_0.
Defined.

(** * The first point and the minimal length (C7) *)

Lemma fallback_too_short (finalTime : R) (p0 v0 : Vec3) (attractorRadius : R) :
  calculateOrbit finalTime p0 v0 attractorRadius = fallback ->
  ~ (2 <= length (fst (calculateOrbit finalTime p0 v0 attractorRadius)))%nat.
Proof. intros ->. rewrite fallback_eq. cbn. lia. Qed.

(** C7 as stated fails twice: a duration of two points yields the fallback
    although nothing collides, and a body that is inside the attractor
    after its first step yields the fallback although it starts outside. *)
Lemma first_point_as_stated_fails :
  ~ first_point_as_stated 0.2 {| x := 1; y := 0; z := 0 |}
      {| x := 0; y := 1; z := 0 |} 0 /\
  ~ first_point_as_stated 1 {| x := 1; y := 0; z := 0 |}
      {| x := -10; y := 0; z := 0 |} 0.5.
Proof.
  split; intros H.
  - destruct H as [Hlen _].
    + rewrite numPoints_of_0_2. lia.
    + rewrite numPoints_of_0_2. unfold max_array_length. lia.
    + lra.
    + rewrite hypot3_x_axis, Rabs_R1. lra.
    + apply hypot3_pos; cbn [x y z]; lra.
    + revert Hlen. apply fallback_too_short.
      destruct (planetRK2_complete (numPoints_of 0.2) 0 (4.0 * PI * PI)
                  timeStep {| x := 1; y := 0; z := 0 |}
                  {| x := 0; y := 1; z := 0 |} 0 0 _ _ _
                  ltac:(rewrite numPoints_of_0_2; lia)
                  (sized_allocated (numPoints_of 0.2) _ _ 0
                     ltac:(rewrite numPoints_of_0_2; lia))
                  (aget_aset_eq _ _ _) (aget_aset_eq _ _ _)
                  ltac:(intros; apply never_collides_radius_0))
        as (st' & Hrun & _).
      apply (calculateOrbit_short _ _ _ _ st' _ Hrun).
      cbn [num]. rewrite numPoints_of_0_2. lia.
  - destruct H as [Hlen _].
    + rewrite numPoints_of_1. lia.
    + rewrite numPoints_of_1. unfold max_array_length. lia.
    + lra.
    + rewrite hypot3_x_axis, Rabs_R1. lra.
    + apply hypot3_pos; cbn [x y z]; lra.
    + revert Hlen. apply fallback_too_short.
      destruct (integration_collision 1 {| x := 1; y := 0; z := 0 |}
                  {| x := -10; y := 0; z := 0 |} 0.5 1
                  ltac:(rewrite numPoints_of_1; lia)
                  (proj2 plunge_collides_at_1))
        as [st' Hrun].
      { intros k Hk. assert (k = 0)%nat as -> by lia.
        exact (proj1 plunge_collides_at_1). }
      apply (calculateOrbit_short _ _ _ _ st' _ Hrun). cbn [num]. lia.
Qed.

(** C7, amended: for inputs with at least 3 points requested (and a valid
    array length), a start outside the attractor, a non-zero velocity, and
    a first step that does not end inside the attractor, the trajectory has
    length at least 2 and its first element is the initial position. *)
Theorem trajectory_starts_at_initial_position (finalTime : R) (p0 v0 : Vec3)
    (attractorRadius : R) :
  (3 <= numPoints_of finalTime)%nat ->
  (Z.of_nat (numPoints_of finalTime) <= max_array_length)%Z ->
  0 <= attractorRadius ->
  hypot3 p0 > attractorRadius -> hypot3 v0 > 0 ->
  ~ collides_at attractorRadius (4.0 * PI * PI) timeStep p0 v0 1 ->
  (2 <= length (fst (calculateOrbit finalTime p0 v0 attractorRadius)))%nat /\
  aget (fst (calculateOrbit finalTime p0 v0 attractorRadius)) 0 = Some p0.
Proof.
  intros Hn Hmax Ha Hr Hv Hfree1.
  destruct (integration_total finalTime p0 v0 attractorRadius ltac:(lia))
    as (st' & res & Hrun & Hlen & _ & Hupto & Hcases).
  pose proof (Hupto 0%nat ltac:(lia)) as Hp. cbn [orbit_state fst] in Hp.
  assert (Hnum : (2 <= num res <= numPoints_of finalTime - 1)%nat).
  { destruct Hcases as [(_ & ->)|(_ & Hle & Hcol)]; [lia|].
    split; [|lia].
    destruct (num res) as [|[|k]]; [| |lia].
    - exfalso. unfold collides_at in Hcol. cbn [orbit_state fst] in Hcol. lra.
    - contradiction. }
  rewrite (calculateOrbit_integrated finalTime p0 v0 attractorRadius st' res
             ltac:(lia) Hmax ltac:(lra) ltac:(lra) Hrun).
  assert (E : (num res <? 2)%nat = false) by (apply Nat.ltb_ge; lia).
  rewrite E; cbn [fst]. split.
  - rewrite length_slice0; lia.
  - rewrite aget_slice0 by lia. exact Hp.
Qed.

Lemma trajectory_starts_at_initial_position_witness :
  (2 <= length (fst (calculateOrbit 1 {| x := 1; y := 0; z := 0 |}
                       {| x := 0; y := 1; z := 0 |} 0)))%nat /\
  aget (fst (calculateOrbit 1 {| x := 1; y := 0; z := 0 |}
               {| x := 0; y := 1; z := 0 |} 0)) 0
  = Some {| x := 1; y := 0; z := 0 |}.
Proof.
  apply (trajectory_starts_at_initial_position 1 {| x := 1; y := 0; z := 0 |}
           {| x := 0; y := 1; z := 0 |} 0).
  - rewrite numPoints_of_1. lia.
  - rewrite numPoints_of_1. unfold max_array_length. lia.
  - apply Rle_refl.
  - rewrite hypot3_x_axis, Rabs_R1. apply Rlt_0_1.
  - apply hypot3_pos; cbn [x y z]; lra.
  - apply never_collides_radius_0.
Defined.

(** * Further properties of physics.ts *)

(** ** Durations of at most two points *)

(** X1: a duration that rounds to at most two points always yields the
    fallback, whatever the initial state and the attractor radius: with one
    point the loop is not entered, with two it can report at most index 1. *)
Theorem short_duration_falls_back (finalTime : R) (p0 v0 : Vec3)
    (attractorRadius : R) :
  (numPoints_of finalTime <= 2)%nat ->
  calculateOrbit finalTime p0 v0 attractorRadius
  = ([Some {| x := 0.1; y := 0; z := 0 |}], 0).
Proof.
  intros Hn. transitivity fallback; [|exact fallback_eq].
  destruct (le_lt_dec 2 (numPoints_of finalTime)) as [H2|H2].
  - destruct (integration_total finalTime p0 v0 attractorRadius H2)
      as (st' & res & Hrun & _ & Hle & _).
    apply (calculateOrbit_short finalTime p0 v0 attractorRadius st' res Hrun).
    lia.
  - rewrite calculateOrbit_unfold.
    destruct (numPoints_of finalTime <=? 0)%nat; [reflexivity|].
    destruct (negb _); [reflexivity|].
    destruct (_ || _); [reflexivity|].
    unfold integration, planetRK2.
    assert (E : (numPoints_of finalTime <=? 1)%nat = true)
      by (apply Nat.leb_le; lia).
    rewrite E. reflexivity.
Qed.

Lemma short_duration_falls_back_witness :
  calculateOrbit 0.2 {| x := 1; y := 0; z := 0 |}
    {| x := 0; y := 1; z := 0 |} 0
  = ([Some {| x := 0.1; y := 0; z := 0 |}], 0).
Proof.
  apply (short_duration_falls_back 0.2 {| x := 1; y := 0; z := 0 |}
           {| x := 0; y := 1; z := 0 |} 0).
  rewrite numPoints_of_0_2. lia.
Defined.

(** ** Exceptions *)

(** X2: on the arrays [calculateOrbit] builds, [planetRK2] never reads an
    undefined entry, so it always returns; the only exception the [try]
    block can raise is the RangeError of [new Array], when the point count
    exceeds 2^32 - 1. *)
Theorem only_allocation_throws (finalTime : R) (p0 v0 : Vec3)
    (attractorRadius : R) :
  (exists st' res,
     integration finalTime p0 v0 attractorRadius = Some (st', res)) /\
  (calculateOrbit_try finalTime p0 v0 attractorRadius = None
   <-> (max_array_length < Z.of_nat (numPoints_of finalTime))%Z).
Proof.
  assert (Hint : exists st' res,
             integration finalTime p0 v0 attractorRadius = Some (st', res)).
  { destruct (le_lt_dec 2 (numPoints_of finalTime)) as [H2|H2].
    - destruct (integration_total finalTime p0 v0 attractorRadius H2)
        as (st' & res & Hrun & _). eauto.
    - unfold integration, planetRK2.
      assert (E : (numPoints_of finalTime <=? 1)%nat = true)
        by (apply Nat.leb_le; lia).
      rewrite E. eauto. }
  split; [exact Hint|].
  destruct Hint as (st' & res & Hrun). unfold integration in Hrun.
  unfold calculateOrbit_try. cbv zeta. fold (numPoints_of finalTime).
  destruct (numPoints_of finalTime <=? 0)%nat eqn:En.
  { apply Nat.leb_le in En. cbn [orb]. split; [discriminate|].
    unfold max_array_length. lia. }
  destruct (Rleb timeStep 0) eqn:Et;
    [apply Rleb_true in Et; destruct (timeStep_pos Et)|].
  cbn [orb]. unfold new_Array.
  destruct (Z.of_nat (numPoints_of finalTime) <=? max_array_length)%Z
    eqn:Emax.
  - apply Z.leb_le in Emax. cbn [bind].
    split; [|lia]. intros H. exfalso. revert H.
    destruct (Rleb _ 0 || Rleb _ 0); [discriminate|].
    rewrite Hrun. cbn [bind].
    destruct (num res <? 2)%nat; discriminate.
  - apply Z.leb_gt in Emax. cbn [bind]. split; [intros _; lia|reflexivity].
Qed.

(** ** The arrays and the report of the step loop *)

(** X3: whether or not the run collides, [planetRK2] leaves the three
    arrays at their length [n] with every index populated, and the time
    entry of index [k] is the initial time plus [k] steps. *)
Theorem arrays_after_run (n : nat) (radius GM dt : R)
    (t0 : Arr R) (pos0 vel0 : Arr Vec3) (p0 v0 : Vec3) (tau0 : R)
    (num0 error0 : nat) :
  (2 <= n)%nat ->
  sized n {| t := t0; pos := pos0; vel := vel0 |} ->
  aget pos0 0 = Some p0 -> aget vel0 0 = Some v0 -> aget t0 0 = Some tau0 ->
  exists st' res,
    planetRK2 n num0 radius GM dt t0 pos0 vel0 error0 = Some (st', res) /\
    length (t st') = n /\ length (pos st') = n /\ length (vel st') = n /\
    forall k, (k < n)%nat ->
      (exists p v, aget (pos st') k = Some p /\ aget (vel st') k = Some v) /\
      aget (t st') k = Some (tau0 + INR k * dt).
Proof.
  intros Hn Hsz Hp Hv Ht.
  destruct (planetRK2_spec n radius GM dt num0 error0 t0 pos0 vel0 p0 v0
              Hn Hsz Hp Hv)
    as (st' & res & Hrun & Hs' & Hp' & Hv' & Ht' & Htick & Hcases).
  exists st', res. split; [exact Hrun|].
  destruct Hs' as (Hlt & Hlp & Hlv).
  split; [exact Hlt|]. split; [exact Hlp|]. split; [exact Hlv|].
  rewrite Ht in Ht'. intros k Hk. split.
  - destruct Hcases as [(_ & Hnum & Hsteps)|(_ & Hle & Hsteps & Hcol)].
    + destruct (stepped_orbit radius GM dt p0 v0 st' (n - 1) Hp' Hv' Hsteps
                  k ltac:(lia)) as (Hpk & Hvk & _).
      eauto.
    + destruct (le_lt_dec k (num res)) as [Hle'|Hgt].
      * destruct (stepped_orbit radius GM dt p0 v0 st' (num res) Hp' Hv'
                    Hsteps k Hle') as (Hpk & Hvk & _).
        eauto.
      * destruct Hcol as (pc & _ & _ & Hfrozen).
        destruct (Hfrozen k ltac:(lia)) as [Hpk Hvk]. eauto.
  - apply (ticking_defined n dt st' tau0 Ht' Htick). lia.
Qed.

Lemma arrays_after_run_witness :
  exists st' res,
    planetRK2 3 0 1 (4.0 * PI * PI) 0.1
      [Some 0; None; None]
      [Some {| x := 0.5; y := 0; z := 0 |}; None; None]
      [Some {| x := 0; y := 1; z := 0 |}; None; None] 0 = Some (st', res) /\
    length (t st') = 3%nat /\ length (pos st') = 3%nat /\
    length (vel st') = 3%nat /\
    forall k, (k < 3)%nat ->
      (exists p v, aget (pos st') k = Some p /\ aget (vel st') k = Some v) /\
      aget (t st') k = Some (0 + INR k * 0.1).
Proof.
  apply (arrays_after_run 3 1 (4.0 * PI * PI) 0.1
           [Some 0; None; None]
           [Some {| x := 0.5; y := 0; z := 0 |}; None; None]
           [Some {| x := 0; y := 1; z := 0 |}; None; None]
           {| x := 0.5; y := 0; z := 0 |} {| x := 0; y := 1; z := 0 |} 0 0 0).
  - lia.
  - apply (sized_allocated 3); lia.
  - reflexivity.
  - reflexivity.
  - reflexivity.
Defined.




(** ** The shape of the returned trajectory *)

(** X5: the trajectory [calculateOrbit] returns is never empty and never
    of length 2: it is the one-point fallback, or it has between 3 and
    [numPoints] points and starts at the initial position; no index of it
    is a hole. *)
Theorem trajectory_shape (finalTime : R) (p0 v0 : Vec3) (attractorRadius : R) :
  (fst (calculateOrbit finalTime p0 v0 attractorRadius)
   = [Some {| x := 0.1; y := 0; z := 0 |}]
   \/
   ((3 <= length (fst (calculateOrbit finalTime p0 v0 attractorRadius))
     <= numPoints_of finalTime)%nat /\
    aget (fst (calculateOrbit finalTime p0 v0 attractorRadius)) 0 = Some p0))
  /\
  forall k,
    (k < length (fst (calculateOrbit finalTime p0 v0 attractorRadius)))%nat ->
    exists q,
      aget (fst (calculateOrbit finalTime p0 v0 attractorRadius)) k = Some q.
Proof.
  destruct (calculateOrbit_cases finalTime p0 v0 attractorRadius)
    as [Hfb|(st' & res & _ & _ & _ & _ & Hrun & Hnum & Heq)].
  - rewrite Hfb, fallback_eq; cbn [fst]. split; [left; reflexivity|].
    intros k Hk. cbn in Hk. assert (k = 0)%nat as -> by lia.
    exists fallback_point. reflexivity.
  - rewrite Heq; cbn [fst].
    pose proof (integration_requested finalTime p0 v0 attractorRadius
                  st' res Hrun Hnum) as Hn.
    destruct (integration_total finalTime p0 v0 attractorRadius Hn)
      as (st'' & res' & Hrun' & Hlen & Hle & Hupto & _).
    rewrite Hrun in Hrun'. injection Hrun' as <- <-.
    rewrite length_slice0 by lia. split.
    + right. split; [lia|]. rewrite aget_slice0 by lia.
      exact (Hupto 0%nat ltac:(lia)).
    + intros k Hk. rewrite aget_slice0 by lia.
      rewrite (Hupto k) by lia. eauto.
Qed.



(** ** The point-mass limit *)

(** X7: with radius 0 the quadrupole terms vanish and one step is the
    midpoint scheme of the inverse-square force: the position advances
    with the velocity kicked for half a step by [- GM p / |p|^3], the
    velocity is kicked for a full step by the same force at the half-step
    position. *)
Theorem point_mass_step (GM dt : R) (p v : Vec3) :
  rk2_step 0 GM dt p v
  = (vadd p (vscale dt
               (vsub v (vscale (dt / 2 * (GM / hypot3 p ^ 3)) p))),
     vsub v (vscale (dt * (GM / hypot3 (half_step dt p v) ^ 3))
               (half_step dt p v))).
Proof.
  apply injective_projections.
  - unfold rk2_step; cbn [fst]. unfold vadd, vsub, vscale, sq; cbn [x y z].
    set (r := hypot3 p).
    replace (r * r * r) with (r ^ 3) by ring.
    replace 2.0 with 2 by lra.
    f_equal; unfold Rdiv; decimals; ring.
  - rewrite rk2_step_velocity; cbn [snd].
    unfold accel. set (h := half_step dt p v). set (r := hypot3 h).
    unfold vadd, vsub, vscale; cbn [x y z].
    f_equal; unfold Rdiv; decimals; ring.
Qed.

(** X8: around a point mass (attractor radius 0) the loop never stops
    early: when the guards pass and at least 3 points are requested, the
    trajectory has exactly [numPoints] points, the iterated steps, and the
    energy is the Kepler energy [v0^2/2 - 4 pi^2/r0]. *)
Theorem point_mass_orbit (finalTime : R) (p0 v0 : Vec3) :
  (3 <= numPoints_of finalTime)%nat ->
  (Z.of_nat (numPoints_of finalTime) <= max_array_length)%Z ->
  0 < hypot3 p0 -> 0 < hypot3 v0 ->
  length (fst (calculateOrbit finalTime p0 v0 0)) = numPoints_of finalTime /\
  (forall k, (k < numPoints_of finalTime)%nat ->
     aget (fst (calculateOrbit finalTime p0 v0 0)) k
     = Some (fst (orbit_state 0 (4.0 * PI * PI) timeStep p0 v0 k))) /\
  snd (calculateOrbit finalTime p0 v0 0)
  = hypot3 v0 ^ 2 / 2 - 4 * PI ^ 2 / hypot3 p0.
Proof.
  intros Hn Hmax Hr Hv.
  destruct (calculateOrbit_complete finalTime p0 v0 0 Hmax Hr Hv Hn)
    as (traj & Heq & Hlen & Hupto).
  { intros k _. apply never_collides_radius_0. }
  rewrite Heq; cbn [fst snd]. split; [exact Hlen|]. split; [exact Hupto|].
  unfold claimed_energy. decimals. field. lra.
Qed.

Lemma point_mass_orbit_witness :
  length (fst (calculateOrbit 1 {| x := 1; y := 0; z := 0 |}
                 {| x := 0; y := 1; z := 0 |} 0)) = numPoints_of 1 /\
  (forall k, (k < numPoints_of 1)%nat ->
     aget (fst (calculateOrbit 1 {| x := 1; y := 0; z := 0 |}
                  {| x := 0; y := 1; z := 0 |} 0)) k
     = Some (fst (orbit_state 0 (4.0 * PI * PI) timeStep
                    {| x := 1; y := 0; z := 0 |}
                    {| x := 0; y := 1; z := 0 |} k))) /\
  snd (calculateOrbit 1 {| x := 1; y := 0; z := 0 |}
         {| x := 0; y := 1; z := 0 |} 0)
  = hypot3 {| x := 0; y := 1; z := 0 |} ^ 2 / 2
    - 4 * PI ^ 2 / hypot3 {| x := 1; y := 0; z := 0 |}.
Proof.
  apply (point_mass_orbit 1 {| x := 1; y := 0; z := 0 |}
           {| x := 0; y := 1; z := 0 |}).
  - rewrite numPoints_of_1. lia.
  - rewrite numPoints_of_1. unfold max_array_length. lia.
  - apply hypot3_pos; cbn [x y z]; lra.
  - apply hypot3_pos; cbn [x y z]; lra.
Defined.

(** ** Negative durations *)

Lemma calculateOrbit_numPoints (ft1 ft2 : R) (p0 v0 : Vec3)
    (attractorRadius : R) :
  numPoints_of ft1 = numPoints_of ft2 ->
  calculateOrbit ft1 p0 v0 attractorRadius
  = calculateOrbit ft2 p0 v0 attractorRadius.
Proof.
  intros H. rewrite !calculateOrbit_unfold. unfold integration.
  rewrite H. reflexivity.
Qed.

Lemma abs_nat_opp (k : Z) : Z.abs_nat (- k) = Z.abs_nat k.
Proof. destruct k; reflexivity. Qed.

Lemma Math_round_opp (a : R) :
  (forall m : Z, a + 0.5 <> IZR m) -> Math_round (- a) = (- Math_round a)%Z.
Proof.
  intros Hni. unfold Math_round.
  destruct (base_Int_part (a + 0.5)) as [Hle Hgt].
  assert (Hlt : IZR (Int_part (a + 0.5)) < a + 0.5).
  { destruct Hle as [H|H]; [exact H|]. exfalso. exact (Hni _ (eq_sym H)). }
  symmetry. apply Int_part_spec. rewrite opp_IZR. lra.
Qed.

(** X9: the sign of the duration does not matter as long as
    [finalTime / 0.1] is not half-way between two integers: the negated
    duration gives the same point count, hence the same trajectory and
    energy (the orbit is never integrated backwards in time). *)
Theorem negative_duration_same_orbit (finalTime : R) (p0 v0 : Vec3)
    (attractorRadius : R) :
  (forall m : Z, finalTime / timeStep + 0.5 <> IZR m) ->
  numPoints_of (- finalTime) = numPoints_of finalTime /\
  calculateOrbit (- finalTime) p0 v0 attractorRadius
  = calculateOrbit finalTime p0 v0 attractorRadius.
Proof.
  intros Hni.
  assert (E : numPoints_of (- finalTime) = numPoints_of finalTime).
  { unfold numPoints_of.
    replace (- finalTime / timeStep) with (- (finalTime / timeStep))
      by (unfold timeStep; decimals; field).
    rewrite (Math_round_opp _ Hni). apply abs_nat_opp. }
  split; [exact E|]. apply calculateOrbit_numPoints. exact E.
Qed.

Lemma not_half_integer_1 : forall m : Z, 1 / timeStep + 0.5 <> IZR m.
Proof.
  intros m H.
  assert (E : IZR (2 * m) = IZR 21).
  { rewrite mult_IZR, <- H. unfold timeStep. lra. }
  apply eq_IZR in E. lia.
Qed.

Lemma negative_duration_same_orbit_witness :
  numPoints_of (- 1) = numPoints_of 1 /\
  calculateOrbit (- 1) {| x := 1; y := 0; z := 0 |}
    {| x := 0; y := 1; z := 0 |} 0
  = calculateOrbit 1 {| x := 1; y := 0; z := 0 |}
      {| x := 0; y := 1; z := 0 |} 0.
Proof.
  apply (negative_duration_same_orbit 1 {| x := 1; y := 0; z := 0 |}
           {| x := 0; y := 1; z := 0 |} 0).
  exact not_half_integer_1.
Defined.

(** X10: when [finalTime / 0.1] is half-way between [m - 1] and [m] for a
    positive integer [m], rounding goes up on both sides of zero: the
    duration gives [m] points and the negated duration [m - 1]. *)
Theorem half_way_duration (finalTime : R) (m : Z) :
  (1 <= m)%Z ->
  finalTime / timeStep + 0.5 = IZR m ->
  numPoints_of finalTime = Z.to_nat m /\
  numPoints_of (- finalTime) = Z.to_nat (m - 1).
Proof.
  intros Hm H. unfold numPoints_of. split.
  - rewrite (Math_round_eq _ m) by lra.
    apply Zabs2Nat.abs_nat_nonneg. lia.
  - replace (- finalTime / timeStep) with (- (finalTime / timeStep))
      by (unfold timeStep; decimals; field).
    rewrite (Math_round_eq _ (1 - m)) by (rewrite minus_IZR; lra).
    replace (1 - m)%Z with (- (m - 1))%Z by lia.
    rewrite abs_nat_opp. apply Zabs2Nat.abs_nat_nonneg. lia.
Qed.

Lemma half_way_duration_witness :
  numPoints_of 1.25 = Z.to_nat 13 /\
  numPoints_of (- (1.25)) = Z.to_nat (13 - 1).
Proof.
  apply (half_way_duration 1.25 13).
  - lia.
  - unfold timeStep. lra.
Defined.

(** * The controls (UserInterface.tsx, App.tsx) *)









Lemma numPoints_of_100 : numPoints_of 100 = 1000%nat.
Proof. apply (numPoints_of_eq 100 1000). unfold timeStep. lra. Qed.

Lemma outside_start_integrates (finalTime : R) (p0 v0 : Vec3)
    (attractorRadius : R) :
  (3 <= numPoints_of finalTime)%nat ->
  (Z.of_nat (numPoints_of finalTime) <= max_array_length)%Z ->
  0 < attractorRadius <= hypot3 p0 -> 0 < hypot3 v0 ->
  ~ collides_at attractorRadius (4.0 * PI * PI) timeStep p0 v0 1 ->
  calculateOrbit finalTime p0 v0 attractorRadius <> fallback.
Proof.
  intros Hn Hmax [Ha Hr] Hv Hfree1.
  destruct (integration_total finalTime p0 v0 attractorRadius ltac:(lia))
    as (st' & res & Hrun & Hlen & Hle & _ & Hcases).
  assert (Hnum : (2 <= num res)%nat).
  { destruct Hcases as [(_ & ->)|(_ & _ & Hcol)]; [lia|].
    destruct (num res) as [|[|k]]; [| |lia].
    - exfalso. unfold collides_at in Hcol. cbn [orbit_state fst] in Hcol. lra.
    - contradiction. }
  rewrite (calculateOrbit_integrated finalTime p0 v0 attractorRadius st' res
             ltac:(lia) Hmax ltac:(lra) Hv Hrun).
  assert (E : (num res <? 2)%nat = false) by (apply Nat.ltb_ge; lia).
  rewrite E. apply fallback_length. rewrite length_slice0; lia.
Qed.

(** X13: for a state of the application whose initial position is on or
    outside the attractor, with a non-zero velocity and at least 3 points
    requested, the computed orbit is the fallback exactly when the first
    integration step ends inside the attractor. *)
Theorem outside_state_orbit (s : UI.SimulationParams) :
  outside_attractor s ->
  0 < hypot3 (UI.initialVelocity s) ->
  (3 <= numPoints_of (UI.finalTime s))%nat ->
  (Z.of_nat (numPoints_of (UI.finalTime s)) <= max_array_length)%Z ->
  (App.orbit s = fallback
   <-> collides_at (UI.attractorSize s) (4.0 * PI * PI) timeStep
         (UI.initialPosition s) (UI.initialVelocity s) 1).
Proof.
  intros Hout Hv Hn Hmax. unfold App.orbit. split.
  - intros Hfb.
    destruct (Rlt_dec
                (hypot3 (fst (orbit_state (UI.attractorSize s) (4.0 * PI * PI)
                                timeStep (UI.initialPosition s)
                                (UI.initialVelocity s) 1)))
                (UI.attractorSize s)) as [Hcol|Hfree]; [exact Hcol|].
    exfalso. revert Hfb.
    apply outside_start_integrates; assumption.
  - intros Hcol.
    destruct (integration_collision (UI.finalTime s) (UI.initialPosition s)
                (UI.initialVelocity s) (UI.attractorSize s) 1
                ltac:(lia) Hcol) as [st' Hrun].
    { intros k Hk. assert (k = 0)%nat as -> by lia.
      unfold collides_at; cbn [orbit_state fst].
      destruct Hout as [_ Hle]. lra. }
    apply (calculateOrbit_short _ _ _ _ st' _ Hrun). cbn [num]. lia.
Qed.

Lemma outside_state_orbit_witness :
  App.orbit App.initialParams = fallback
  <-> collides_at (UI.attractorSize App.initialParams) (4.0 * PI * PI)
        timeStep (UI.initialPosition App.initialParams)
        (UI.initialVelocity App.initialParams) 1.
Proof.
  apply (outside_state_orbit App.initialParams).
  - unfold outside_attractor, App.initialParams; cbn.
    rewrite hypot3_x_axis, Rabs_pos_eq; lra.
  - apply hypot3_pos; cbn; lra.
  - cbn [App.initialParams UI.finalTime]. rewrite numPoints_of_100. lia.
  - cbn [App.initialParams UI.finalTime]. rewrite numPoints_of_100.
    unfold max_array_length. lia.
Defined.

(** * The canvas (Canvas.tsx) *)

(** ** The sampled surfaces *)

Lemma fold_snoc {A : Type} (f : list A -> nat -> list A) (g : nat -> A)
    (l : list nat) (acc : list A) :
  (forall out i, f out i = out ++ [g i]) ->
  fold_left f l acc = acc ++ map g l.
Proof.
  intros Hf. revert acc; induction l as [|i l IH]; intros acc;
    cbn [fold_left map].
  - now rewrite app_nil_r.
  - rewrite IH, Hf. now rewrite <- app_assoc.
Qed.

Lemma createSphereMatrix_map (radius : R) (axis : Canvas.Axis)
    (resolution : nat) :
  Canvas.createSphereMatrix radius axis resolution
  = map (fun i =>
           map (fun j => coordinate axis (sphere_point radius resolution i j))
             (seq 0 (resolution + 1)))
      (seq 0 (resolution + 1)).
Proof.
  unfold Canvas.createSphereMatrix. cbv zeta.
  apply (fold_snoc _
           (fun i => map (fun j => coordinate axis
                                     (sphere_point radius resolution i j))
                       (seq 0 (resolution + 1)))).
  intros out i. f_equal. f_equal.
  apply (fold_snoc _
           (fun j => coordinate axis (sphere_point radius resolution i j))).
  intros row j. destruct axis; reflexivity.
Qed.

Lemma createRingMatrix_map (radius tubeRadius : R) (axis : Canvas.Axis)
    (resolution : nat) :
  Canvas.createRingMatrix radius tubeRadius axis resolution
  = map (fun i =>
           map (fun j => coordinate axis
                           (ring_point radius tubeRadius resolution i j))
             (seq 0 (resolution + 1)))
      (seq 0 (resolution + 1)).
Proof.
  unfold Canvas.createRingMatrix. cbv zeta.
  apply (fold_snoc _
           (fun i => map (fun j => coordinate axis
                                     (ring_point radius tubeRadius
                                        resolution i j))
                       (seq 0 (resolution + 1)))).
  intros out i. f_equal. f_equal.
  apply (fold_snoc _
           (fun j => coordinate axis
                       (ring_point radius tubeRadius resolution i j))).
  intros row j. destruct axis; reflexivity.
Qed.

Lemma entry_map (g : nat -> nat -> R) (n i j : nat) :
  (i < n)%nat -> (j < n)%nat ->
  Canvas.entry (map (fun i => map (fun j => g i j) (seq 0 n)) (seq 0 n)) i j
  = Some (g i j).
Proof.
  intros Hi Hj. unfold Canvas.entry.
  rewrite nth_error_map, nth_error_seq.
  assert (Ei : (i <? n)%nat = true) by (apply Nat.ltb_lt; exact Hi).
  rewrite Ei. cbn [option_map Nat.add].
  rewrite nth_error_map, nth_error_seq.
  assert (Ej : (j <? n)%nat = true) by (apply Nat.ltb_lt; exact Hj).
  rewrite Ej. reflexivity.
Qed.

Lemma sphere_entry (radius : R) (axis : Canvas.Axis) (resolution i j : nat) :
  (i <= resolution)%nat -> (j <= resolution)%nat ->
  Canvas.entry (Canvas.createSphereMatrix radius axis resolution) i j
  = Some (coordinate axis (sphere_point radius resolution i j)).
Proof.
  intros Hi Hj. rewrite createSphereMatrix_map.
  apply (entry_map
           (fun i j => coordinate axis (sphere_point radius resolution i j)));
    lia.
Qed.

Lemma ring_entry (radius tubeRadius : R) (axis : Canvas.Axis)
    (resolution i j : nat) :
  (i <= resolution)%nat -> (j <= resolution)%nat ->
  Canvas.entry (Canvas.createRingMatrix radius tubeRadius axis resolution) i j
  = Some (coordinate axis (ring_point radius tubeRadius resolution i j)).
Proof.
  intros Hi Hj. rewrite createRingMatrix_map.
  apply (entry_map
           (fun i j => coordinate axis
                         (ring_point radius tubeRadius resolution i j)));
    lia.
Qed.

Lemma matrix_shape (g : nat -> list R) (n : nat) :
  (forall i, length (g i) = n) ->
  length (map g (seq 0 n)) = n /\
  forall row, In row (map g (seq 0 n)) -> length row = n.
Proof.
  intros Hg. split; [now rewrite length_map, length_seq|].
  intros row Hin. apply in_map_iff in Hin. destruct Hin as (i & <- & _).
  apply Hg.
Qed.

Lemma sphere_point_on_sphere (radius : R) (resolution i j : nat) :
  x (sphere_point radius resolution i j) * x (sphere_point radius resolution i j)
  + y (sphere_point radius resolution i j)
    * y (sphere_point radius resolution i j)
  + z (sphere_point radius resolution i j)
    * z (sphere_point radius resolution i j)
  = radius * radius.
Proof.
  unfold sphere_point; cbn [x y z].
  set (theta := INR i / INR resolution * PI).
  set (phi := INR j / INR resolution * 2 * PI).
  pose proof (sin2_cos2 theta) as Ht. pose proof (sin2_cos2 phi) as Hp.
  unfold Rsqr in Ht, Hp.
  replace (radius * sin theta * cos phi * (radius * sin theta * cos phi)
           + radius * sin theta * sin phi * (radius * sin theta * sin phi)
           + radius * cos theta * (radius * cos theta))
    with (radius * radius
          * (sin theta * sin theta * (sin phi * sin phi + cos phi * cos phi)
             + cos theta * cos theta)) by ring.
  rewrite Hp, Rmult_1_r, Ht. ring.
Qed.

(** X14: for [resolution >= 1] (the angles divide by [resolution]) the
    three matrices of [createSphereMatrix] have [resolution + 1] rows of
    [resolution + 1] entries, and the entries of equal indices are the
    coordinates of a point at distance [|radius|] from the origin:
    [x^2 + y^2 + z^2 = radius^2] (the arithmetic is that of the real
    numbers). *)
Theorem sphere_matrices_on_sphere (radius : R) (resolution : nat) :
  (1 <= resolution)%nat ->
  (forall axis,
     length (Canvas.createSphereMatrix radius axis resolution)
     = (resolution + 1)%nat /\
     forall row, In row (Canvas.createSphereMatrix radius axis resolution) ->
                 length row = (resolution + 1)%nat) /\
  forall i j, (i <= resolution)%nat -> (j <= resolution)%nat ->
    exists px py pz,
      Canvas.entry
        (Canvas.createSphereMatrix radius Canvas.axis_x resolution) i j
      = Some px /\
      Canvas.entry
        (Canvas.createSphereMatrix radius Canvas.axis_y resolution) i j
      = Some py /\
      Canvas.entry
        (Canvas.createSphereMatrix radius Canvas.axis_z resolution) i j
      = Some pz /\
      px * px + py * py + pz * pz = radius * radius.
Proof.
  intros _. split.
  - intros axis. rewrite createSphereMatrix_map. apply matrix_shape.
    intros i. now rewrite length_map, length_seq.
  - intros i j Hi Hj. do 3 eexists.
    rewrite !sphere_entry by assumption.
    repeat split. cbn [coordinate]. apply sphere_point_on_sphere.
Qed.

Lemma sphere_matrices_on_sphere_witness :
  (forall axis,
     length (Canvas.createSphereMatrix 0.5 axis 32) = (32 + 1)%nat /\
     forall row, In row (Canvas.createSphereMatrix 0.5 axis 32) ->
                 length row = (32 + 1)%nat) /\
  forall i j, (i <= 32)%nat -> (j <= 32)%nat ->
    exists px py pz,
      Canvas.entry (Canvas.createSphereMatrix 0.5 Canvas.axis_x 32) i j
      = Some px /\
      Canvas.entry (Canvas.createSphereMatrix 0.5 Canvas.axis_y 32) i j
      = Some py /\
      Canvas.entry (Canvas.createSphereMatrix 0.5 Canvas.axis_z 32) i j
      = Some pz /\
      px * px + py * py + pz * pz = 0.5 * 0.5.
Proof.
  apply (sphere_matrices_on_sphere 0.5 32). lia.
Defined.

Lemma full_turn (resolution : nat) :
  (1 <= resolution)%nat -> INR resolution / INR resolution * 2 * PI = 2 * PI.
Proof.
  intros H. assert (0 < INR resolution) by (apply lt_0_INR; lia).
  field. lra.
Qed.

Lemma no_turn (resolution : nat) : INR 0 / INR resolution * 2 * PI = 0.
Proof. cbn [INR]. unfold Rdiv. ring. Qed.

(** X15: for [resolution >= 1] the sampled sphere is closed: the last
    column repeats the first (the angles 2 pi and 0), the first row is the
    pole (0, 0, radius) and the last row the pole (0, 0, -radius). *)
Theorem sphere_matrices_closed (radius : R) (resolution : nat) :
  (1 <= resolution)%nat ->
  (forall axis i, (i <= resolution)%nat ->
     Canvas.entry (Canvas.createSphereMatrix radius axis resolution)
       i resolution
     = Canvas.entry (Canvas.createSphereMatrix radius axis resolution) i 0) /\
  forall j, (j <= resolution)%nat ->
    Canvas.entry
      (Canvas.createSphereMatrix radius Canvas.axis_x resolution) 0 j
    = Some 0 /\
    Canvas.entry
      (Canvas.createSphereMatrix radius Canvas.axis_y resolution) 0 j
    = Some 0 /\
    Canvas.entry
      (Canvas.createSphereMatrix radius Canvas.axis_z resolution) 0 j
    = Some radius /\
    Canvas.entry
      (Canvas.createSphereMatrix radius Canvas.axis_x resolution)
      resolution j
    = Some 0 /\
    Canvas.entry
      (Canvas.createSphereMatrix radius Canvas.axis_y resolution)
      resolution j
    = Some 0 /\
    Canvas.entry
      (Canvas.createSphereMatrix radius Canvas.axis_z resolution)
      resolution j
    = Some (- radius).
Proof.
  intros Hres.
  assert (Hpos : 0 < INR resolution) by (apply lt_0_INR; lia).
  split.
  - intros axis i Hi. rewrite !sphere_entry by lia. f_equal.
    unfold sphere_point. cbv zeta.
    rewrite full_turn by exact Hres. rewrite no_turn.
    rewrite cos_2PI, sin_2PI, cos_0, sin_0. reflexivity.
  - intros j Hj. rewrite !sphere_entry by lia.
    unfold sphere_point, coordinate; cbn [x y z].
    replace (INR 0 / INR resolution * PI) with 0
      by (cbn [INR]; unfold Rdiv; ring).
    replace (INR resolution / INR resolution * PI) with PI by (field; lra).
    rewrite sin_0, cos_0, sin_PI, cos_PI.
    repeat split; f_equal; ring.
Qed.

Lemma sphere_matrices_closed_witness :
  (forall axis i, (i <= 32)%nat ->
     Canvas.entry (Canvas.createSphereMatrix 0.5 axis 32) i 32
     = Canvas.entry (Canvas.createSphereMatrix 0.5 axis 32) i 0) /\
  forall j, (j <= 32)%nat ->
    Canvas.entry (Canvas.createSphereMatrix 0.5 Canvas.axis_x 32) 0 j
    = Some 0 /\
    Canvas.entry (Canvas.createSphereMatrix 0.5 Canvas.axis_y 32) 0 j
    = Some 0 /\
    Canvas.entry (Canvas.createSphereMatrix 0.5 Canvas.axis_z 32) 0 j
    = Some 0.5 /\
    Canvas.entry (Canvas.createSphereMatrix 0.5 Canvas.axis_x 32) 32 j
    = Some 0 /\
    Canvas.entry (Canvas.createSphereMatrix 0.5 Canvas.axis_y 32) 32 j
    = Some 0 /\
    Canvas.entry (Canvas.createSphereMatrix 0.5 Canvas.axis_z 32) 32 j
    = Some (- (0.5)).
Proof.
  apply (sphere_matrices_closed 0.5 32). lia.
Defined.

Lemma ring_point_on_torus (radius tubeRadius : R) (resolution i j : nat) :
  let p := ring_point radius tubeRadius resolution i j in
  Rsqr (x p * x p + y p * y p + z p * z p
        + radius * radius - tubeRadius * tubeRadius)
  = 4 * (radius * radius) * (x p * x p + y p * y p).
Proof.
  unfold ring_point; cbn [x y z]. cbv zeta.
  set (theta := INR i / INR resolution * 2 * PI).
  set (phi := INR j / INR resolution * 2 * PI).
  pose proof (sin2_cos2 theta) as Ht. pose proof (sin2_cos2 phi) as Hp.
  unfold Rsqr in Ht, Hp. unfold Rsqr.
  set (c := radius + tubeRadius * cos phi).
  assert (Hxy : c * cos theta * (c * cos theta) + c * sin theta * (c * sin theta)
                = c * c).
  { replace (c * cos theta * (c * cos theta) + c * sin theta * (c * sin theta))
      with (c * c * (sin theta * sin theta + cos theta * cos theta)) by ring.
    rewrite Ht. ring. }
  rewrite Hxy.
  assert (Hz : c * c + tubeRadius * sin phi * (tubeRadius * sin phi)
               + radius * radius - tubeRadius * tubeRadius
               = 2 * radius * c).
  { unfold c.
    replace (tubeRadius * sin phi * (tubeRadius * sin phi))
      with (tubeRadius * tubeRadius * (1 - cos phi * cos phi))
      by (rewrite <- Hp; ring).
    ring. }
  rewrite Hz. ring.
Qed.

(** X16: for [resolution >= 1] (the angles divide by [resolution]) the
    three matrices of [createRingMatrix] have [resolution + 1] rows of
    [resolution + 1] entries, and the entries of equal indices are the
    coordinates of a point of the torus of radii [radius] and [tubeRadius]
    around the z axis:
    [(x^2 + y^2 + z^2 + R^2 - r^2)^2 = 4 R^2 (x^2 + y^2)] (the arithmetic
    is that of the real numbers). *)
Theorem ring_matrices_on_torus (radius tubeRadius : R) (resolution : nat) :
  (1 <= resolution)%nat ->
  (forall axis,
     length (Canvas.createRingMatrix radius tubeRadius axis resolution)
     = (resolution + 1)%nat /\
     forall row,
       In row (Canvas.createRingMatrix radius tubeRadius axis resolution) ->
       length row = (resolution + 1)%nat) /\
  forall i j, (i <= resolution)%nat -> (j <= resolution)%nat ->
    exists px py pz,
      Canvas.entry
        (Canvas.createRingMatrix radius tubeRadius Canvas.axis_x resolution)
        i j = Some px /\
      Canvas.entry
        (Canvas.createRingMatrix radius tubeRadius Canvas.axis_y resolution)
        i j = Some py /\
      Canvas.entry
        (Canvas.createRingMatrix radius tubeRadius Canvas.axis_z resolution)
        i j = Some pz /\
      Rsqr (px * px + py * py + pz * pz
            + radius * radius - tubeRadius * tubeRadius)
      = 4 * (radius * radius) * (px * px + py * py).
Proof.
  intros _. split.
  - intros axis. rewrite createRingMatrix_map. apply matrix_shape.
    intros i. now rewrite length_map, length_seq.
  - intros i j Hi Hj. do 3 eexists.
    rewrite !ring_entry by assumption.
    repeat split. cbn [coordinate].
    apply (ring_point_on_torus radius tubeRadius resolution i j).
Qed.

Lemma ring_matrices_on_torus_witness :
  (forall axis,
     length (Canvas.createRingMatrix 1 0.2 axis 32) = (32 + 1)%nat /\
     forall row, In row (Canvas.createRingMatrix 1 0.2 axis 32) ->
                 length row = (32 + 1)%nat) /\
  forall i j, (i <= 32)%nat -> (j <= 32)%nat ->
    exists px py pz,
      Canvas.entry (Canvas.createRingMatrix 1 0.2 Canvas.axis_x 32) i j
      = Some px /\
      Canvas.entry (Canvas.createRingMatrix 1 0.2 Canvas.axis_y 32) i j
      = Some py /\
      Canvas.entry (Canvas.createRingMatrix 1 0.2 Canvas.axis_z 32) i j
      = Some pz /\
      Rsqr (px * px + py * py + pz * pz + 1 * 1 - 0.2 * 0.2)
      = 4 * (1 * 1) * (px * px + py * py).
Proof.
  apply (ring_matrices_on_torus 1 0.2 32). lia.
Defined.

(** X17: for [resolution >= 1] the sampled torus is closed both ways: the
    last column repeats the first and the last row repeats the first. *)
Theorem ring_matrices_closed (radius tubeRadius : R) (resolution : nat)
    (axis : Canvas.Axis) (k : nat) :
  (1 <= resolution)%nat -> (k <= resolution)%nat ->
  Canvas.entry (Canvas.createRingMatrix radius tubeRadius axis resolution)
    k resolution
  = Canvas.entry (Canvas.createRingMatrix radius tubeRadius axis resolution)
      k 0
  /\
  Canvas.entry (Canvas.createRingMatrix radius tubeRadius axis resolution)
    resolution k
  = Canvas.entry (Canvas.createRingMatrix radius tubeRadius axis resolution)
      0 k.
Proof.
  intros Hres Hk. rewrite !ring_entry by lia.
  unfold ring_point. cbv zeta.
  rewrite full_turn by exact Hres. rewrite no_turn.
  rewrite cos_2PI, sin_2PI, cos_0, sin_0. split; reflexivity.
Qed.

Lemma ring_matrices_closed_witness :
  Canvas.entry (Canvas.createRingMatrix 1 0.2 Canvas.axis_x 32) 5 32
  = Canvas.entry (Canvas.createRingMatrix 1 0.2 Canvas.axis_x 32) 5 0
  /\
  Canvas.entry (Canvas.createRingMatrix 1 0.2 Canvas.axis_x 32) 32 5
  = Canvas.entry (Canvas.createRingMatrix 1 0.2 Canvas.axis_x 32) 0 5.
Proof.
  apply (ring_matrices_closed 1 0.2 32 Canvas.axis_x 5); lia.
Defined.

(** ** The plotted range *)

Lemma dense_map_Some {A : Type} (a : Arr A) :
  dense a -> exists l, a = map Some l.
Proof.
  induction a as [|o a IH]; intros Hd.
  - exists []. reflexivity.
  - destruct (Hd 0%nat ltac:(cbn; lia)) as [v Hv]. cbn in Hv. subst o.
    destruct IH as [l ->].
    { intros k Hk. destruct (Hd (S k) ltac:(cbn; lia)) as [w Hw].
      exists w. exact Hw. }
    exists (v :: l). reflexivity.
Qed.

Lemma aget_map_Some {A : Type} (l : list A) (k : nat) (v : A) :
  aget (map Some l) k = Some v -> In v l.
Proof.
  unfold aget. rewrite nth_error_map.
  destruct (nth_error l k) as [w|] eqn:E; cbn; [|discriminate].
  intros H. injection H as <-. eapply nth_error_In; exact E.
Qed.

Lemma fold_Rmax_Some (l : list R) (m0 : R) :
  fold_left (fun acc o' => do m <- acc; do v <- o'; Some (Rmax m v))
    (map Some l) (Some m0)
  = Some (fold_left Rmax l m0).
Proof.
  revert m0; induction l as [|v l IH]; intros m0; cbn [map fold_left bind].
  - reflexivity.
  - apply IH.
Qed.

Lemma fold_Rmax_bounds (l : list R) (m0 : R) :
  m0 <= fold_left Rmax l m0 /\
  (forall v, In v l -> v <= fold_left Rmax l m0) /\
  (fold_left Rmax l m0 = m0 \/ In (fold_left Rmax l m0) l).
Proof.
  revert m0; induction l as [|v l IH]; intros m0; cbn [fold_left].
  - split; [apply Rle_refl|]. split; [intros v []|left; reflexivity].
  - destruct (IH (Rmax m0 v)) as (Hlow & Hall & Hatt).
    split; [eapply Rle_trans; [apply Rmax_l|exact Hlow]|].
    split.
    + intros w [<-|Hw].
      * eapply Rle_trans; [apply Rmax_r|exact Hlow].
      * apply Hall; exact Hw.
    + destruct Hatt as [Heq|Hin].
      * rewrite Heq. unfold Rmax. destruct (Rle_dec m0 v).
        -- right. left. reflexivity.
        -- left. reflexivity.
      * right. right. exact Hin.
Qed.

(** [Math.max(...a)] of a non-empty array without holes is its greatest
    element. *)
Lemma Math_max_spread_dense (l : list R) :
  l <> [] ->
  exists m,
    Canvas.Math_max_spread (map Some l) = Some m /\
    (forall v, In v l -> v <= m) /\ In m l.
Proof.
  destruct l as [|v l]; [congruence|]. intros _.
  exists (fold_left Rmax l v). cbn [map Canvas.Math_max_spread].
  rewrite fold_Rmax_Some. split; [reflexivity|].
  destruct (fold_Rmax_bounds l v) as (Hlow & Hall & Hatt).
  split.
  - intros w [<-|Hw]; [exact Hlow|apply Hall; exact Hw].
  - destruct Hatt as [->|Hin]; [left; reflexivity|right; exact Hin].
Qed.

(** The greatest absolute value of a coordinate over the points and the
    origin. *)
Lemma coordinate_max (f : Vec3 -> R) (pts : list Vec3) :
  exists m,
    Canvas.Math_max_spread
      (Canvas.amap Rabs (push (Canvas.amap f (map Some pts)) 0)) = Some m /\
    0 <= m /\
    (forall q, In q pts -> Rabs (f q) <= m) /\
    (m = 0 \/ exists q, In q pts /\ m = Rabs (f q)).
Proof.
  assert (E : Canvas.amap Rabs (push (Canvas.amap f (map Some pts)) 0)
              = map Some (map Rabs (map f pts ++ [0]))).
  { unfold Canvas.amap, push.
    rewrite !map_map, !map_app, !map_map. reflexivity. }
  rewrite E.
  destruct (Math_max_spread_dense (map Rabs (map f pts ++ [0])))
    as (m & Hm & Hall & Hin).
  { rewrite map_app. intros H. apply app_eq_nil in H. destruct H; discriminate. }
  exists m. split; [exact Hm|].
  rewrite map_app, in_app_iff in Hin. split.
  - rewrite <- Rabs_R0. apply Hall. rewrite map_app, in_app_iff.
    right. left. reflexivity.
  - split.
    + intros q Hq. apply Hall. rewrite map_app, in_app_iff. left.
      apply in_map. apply in_map. exact Hq.
    + destruct Hin as [Hin|[<-|[]]].
      * right. apply in_map_iff in Hin. destruct Hin as (w & <- & Hw).
        apply in_map_iff in Hw. destruct Hw as (q & <- & Hq).
        exists q. split; [exact Hq|reflexivity].
      * left. apply Rabs_R0.
Qed.

Lemma rangeSize_dense (pts : list Vec3) (energy : R) :
  energy < 0 ->
  exists m,
    Canvas.rangeSize (map Some pts) energy = Some (m * 1.25) /\
    5 <= m /\
    (forall q, In q pts ->
       Rabs (x q) <= m /\ Rabs (y q) <= m /\ Rabs (z q) <= m) /\
    (m = 5 \/
     exists q, In q pts /\
       (m = Rabs (x q) \/ m = Rabs (y q) \/ m = Rabs (z q))).
Proof.
  intros He. unfold Canvas.rangeSize. cbv zeta.
  assert (E : Rltb energy 0 = true) by (apply Rltb_true; exact He).
  rewrite E.
  destruct (coordinate_max x pts) as (mx & -> & Hx0 & Hxall & Hxatt).
  destruct (coordinate_max y pts) as (my & -> & Hy0 & Hyall & Hyatt).
  destruct (coordinate_max z pts) as (mz & -> & Hz0 & Hzall & Hzatt).
  cbn [bind].
  exists (Rmax (Rmax (Rmax mx my) mz) 5).
  split; [reflexivity|]. split; [apply Rmax_r|].
  assert (Hmx : mx <= Rmax (Rmax (Rmax mx my) mz) 5).
  { eapply Rle_trans; [apply Rmax_l|]. eapply Rle_trans; [apply Rmax_l|].
    apply Rmax_l. }
  assert (Hmy : my <= Rmax (Rmax (Rmax mx my) mz) 5).
  { eapply Rle_trans; [apply Rmax_r|]. eapply Rle_trans; [apply Rmax_l|].
    apply Rmax_l. }
  assert (Hmz : mz <= Rmax (Rmax (Rmax mx my) mz) 5).
  { eapply Rle_trans; [apply Rmax_r|]. apply Rmax_l. }
  split.
  - intros q Hq. repeat split; eapply Rle_trans;
      try (apply Hxall; exact Hq); try (apply Hyall; exact Hq);
      try (apply Hzall; exact Hq); assumption.
  - assert (Hcase : Rmax (Rmax (Rmax mx my) mz) 5 = 5
                    \/ (5 < Rmax (Rmax (Rmax mx my) mz) 5 /\
                        (Rmax (Rmax (Rmax mx my) mz) 5 = mx
                         \/ Rmax (Rmax (Rmax mx my) mz) 5 = my
                         \/ Rmax (Rmax (Rmax mx my) mz) 5 = mz))).
    { unfold Rmax.
      repeat match goal with
             | |- context [Rle_dec ?a ?b] => destruct (Rle_dec a b)
             end; try (left; reflexivity); right; split; auto; lra. }
    destruct Hcase as [H5|(Hgt & [Heq|[Heq|Heq]])]; [left; exact H5| | |].
    + destruct Hxatt as [H0|(q & Hq & Hm)]; [lra|].
      right. exists q. split; [exact Hq|]. left. congruence.
    + destruct Hyatt as [H0|(q & Hq & Hm)]; [lra|].
      right. exists q. split; [exact Hq|]. right; left. congruence.
    + destruct Hzatt as [H0|(q & Hq & Hm)]; [lra|].
      right. exists q. split; [exact Hq|]. right; right. congruence.
Qed.

(** X18: for a bound orbit (negative energy) whose trajectory has no
    holes, the plotted half-range is [1.25 m], where [m] is the greatest
    absolute coordinate of the trajectory or 5 if that is smaller: the box
    contains every point, and [m] is 5 or attained by a point. *)
Theorem bound_range_contains_orbit (data : Arr Vec3) (energy : R) :
  dense data -> energy < 0 ->
  exists m,
    Canvas.rangeSize data energy = Some (m * 1.25) /\
    5 <= m /\
    within_box data m /\
    (m = 5 \/
     exists k q, aget data k = Some q /\
       (m = Rabs (x q) \/ m = Rabs (y q) \/ m = Rabs (z q))).
Proof.
  intros Hd He. destruct (dense_map_Some data Hd) as [pts ->].
  destruct (rangeSize_dense pts energy He) as (m & Hm & H5 & Hall & Hatt).
  exists m. split; [exact Hm|]. split; [exact H5|]. split.
  - intros k q Hq. apply Hall. eapply aget_map_Some; exact Hq.
  - destruct Hatt as [->|(q & Hq & Hm')]; [left; reflexivity|].
    right. apply In_nth_error in Hq. destruct Hq as [k Hk].
    exists k, q. split; [|exact Hm'].
    unfold aget. rewrite nth_error_map, Hk. reflexivity.
Qed.

Lemma bound_range_contains_orbit_witness :
  exists m,
    Canvas.rangeSize
      [Some {| x := 7; y := 0; z := 0 |}; Some {| x := 0; y := -8; z := 1 |}]
      (-1) = Some (m * 1.25) /\
    5 <= m /\
    within_box
      [Some {| x := 7; y := 0; z := 0 |}; Some {| x := 0; y := -8; z := 1 |}]
      m /\
    (m = 5 \/
     exists k q,
       aget [Some {| x := 7; y := 0; z := 0 |};
             Some {| x := 0; y := -8; z := 1 |}] k = Some q /\
       (m = Rabs (x q) \/ m = Rabs (y q) \/ m = Rabs (z q))).
Proof.
  apply (bound_range_contains_orbit
           [Some {| x := 7; y := 0; z := 0 |};
            Some {| x := 0; y := -8; z := 1 |}] (-1)).
  - intros k Hk. cbn in Hk.
    destruct k as [|[|k]]; [eexists; reflexivity|eexists; reflexivity|lia].
  - lra.
Defined.

Lemma trajectory_dense (finalTime : R) (p0 v0 : Vec3) (attractorRadius : R) :
  dense (fst (calculateOrbit finalTime p0 v0 attractorRadius)).
Proof.
  destruct (calculateOrbit_cases finalTime p0 v0 attractorRadius)
    as [Hfb|(st' & res & _ & _ & _ & _ & Hrun & Hnum & Heq)].
  - rewrite Hfb, fallback_eq; cbn [fst].
    intros k Hk. cbn in Hk. assert (k = 0)%nat as -> by lia.
    exists fallback_point. reflexivity.
  - rewrite Heq; cbn [fst].
    pose proof (integration_requested finalTime p0 v0 attractorRadius
                  st' res Hrun Hnum) as Hn.
    destruct (integration_total finalTime p0 v0 attractorRadius Hn)
      as (st'' & res' & Hrun' & Hlen & Hle & Hupto & _).
    rewrite Hrun in Hrun'. injection Hrun' as <- <-.
    intros k. rewrite length_slice0 by lia. intros Hk.
    rewrite aget_slice0 by lia. rewrite (Hupto k) by lia. eauto.
Qed.

Lemma hypot3_ge_y (p : Vec3) : Rabs (y p) <= hypot3 p.
Proof.
  rewrite <- sqrt_Rsqr_abs. unfold hypot3. apply sqrt_le_1_alt.
  pose proof (Rle_0_sqr (x p)) as Hx. pose proof (Rle_0_sqr (z p)) as Hz.
  unfold Rsqr in *. lra.
Qed.

(** A launch from (4, 0, 0) with the velocity (0, 2, 0) around an attractor
    of size 0.00001, integrated for three points. *)
Lemma launch_orbit_0_3 :
  exists traj,
    calculateOrbit 0.3 {| x := 4; y := 0; z := 0 |}
      {| x := 0; y := 2; z := 0 |} 0.00001
    = (traj, claimed_energy {| x := 4; y := 0; z := 0 |}
               {| x := 0; y := 2; z := 0 |} 0.00001) /\
    length traj = 3%nat.
Proof.
  destruct (calculateOrbit_complete 0.3 {| x := 4; y := 0; z := 0 |}
              {| x := 0; y := 2; z := 0 |} 0.00001)
    as (traj & Heq & Hlen & _).
  - rewrite numPoints_of_0_3. unfold max_array_length. lia.
  - apply hypot3_pos; cbn [x y z]; lra.
  - apply hypot3_pos; cbn [x y z]; lra.
  - rewrite numPoints_of_0_3. lia.
  - rewrite numPoints_of_0_3. intros k Hk. unfold collides_at.
    destruct k as [|[|k]]; [| |lia].
    + cbn [orbit_state fst]. rewrite hypot3_x_axis, Rabs_pos_eq; lra.
    + cbn [orbit_state].
      pose proof (hypot3_ge_y
                    (fst (rk2_step 0.00001 (4.0 * PI * PI) timeStep
                            {| x := 4; y := 0; z := 0 |}
                            {| x := 0; y := 2; z := 0 |}))) as Hy.
      rewrite rk2_step_y_start in Hy by reflexivity. cbn [y] in Hy.
      unfold timeStep in Hy. rewrite Rabs_pos_eq in Hy by lra.
      unfold timeStep. lra.
  - exists traj. rewrite numPoints_of_0_3 in Hlen. split; assumption.
Qed.

(** X19: for a state of the application whose trajectory is computed
    without a division by zero, and whatever energy value the canvas is
    given with it, the plotted half-range is a number of at least 6.25: it
    is 20 when the energy is not negative, and otherwise 1.25 times a bound
    of every coordinate of the trajectory. *)
Theorem canvas_range_of_orbit (s : UI.SimulationParams) (energy : R) :
  (forall k, (k < length (fst (App.orbit s)))%nat ->
     point_defined (UI.attractorSize s) (4.0 * PI * PI) timeStep
       (UI.initialPosition s) (UI.initialVelocity s) k) ->
  exists r,
    Canvas.rangeSize (fst (App.orbit s)) energy = Some r /\
    6.25 <= r /\
    (energy < 0 -> within_box (fst (App.orbit s)) (r / 1.25)) /\
    (~ energy < 0 -> r = 20).
Proof.
  intros _. destruct (Rlt_dec energy 0) as [He|He].
  - destruct (dense_map_Some _ (trajectory_dense
                (UI.finalTime s) (UI.initialPosition s)
                (UI.initialVelocity s) (UI.attractorSize s))) as [pts Hpts].
    unfold App.orbit. rewrite Hpts.
    destruct (rangeSize_dense pts energy He) as (m & Hm & H5 & Hall & _).
    exists (m * 1.25). split; [exact Hm|]. split; [lra|].
    split; [|intros; contradiction]. intros _.
    replace (m * 1.25 / 1.25) with m by (decimals; field).
    intros k q Hq. apply Hall. eapply aget_map_Some; exact Hq.
  - exists 20. unfold Canvas.rangeSize. cbv zeta.
    assert (E : Rltb energy 0 = false) by (apply Rltb_false; exact He).
    rewrite E. split; [reflexivity|]. split; [lra|].
    split; [intros; contradiction|reflexivity].
Qed.

Lemma canvas_range_of_orbit_witness :
  exists r,
    Canvas.rangeSize
      (fst (App.orbit
              {| UI.attractorSize := 0.00001; UI.finalTime := 0.3;
                 UI.initialPosition := {| x := 4; y := 0; z := 0 |};
                 UI.initialVelocity := {| x := 0; y := 2; z := 0 |} |}))
      (-1) = Some r /\
    6.25 <= r /\
    (-1 < 0 ->
     within_box
       (fst (App.orbit
               {| UI.attractorSize := 0.00001; UI.finalTime := 0.3;
                  UI.initialPosition := {| x := 4; y := 0; z := 0 |};
                  UI.initialVelocity := {| x := 0; y := 2; z := 0 |} |}))
       (r / 1.25)) /\
    (~ -1 < 0 -> r = 20).
Proof.
  apply (canvas_range_of_orbit
           {| UI.attractorSize := 0.00001; UI.finalTime := 0.3;
              UI.initialPosition := {| x := 4; y := 0; z := 0 |};
              UI.initialVelocity := {| x := 0; y := 2; z := 0 |} |} (-1)).
  unfold App.orbit.
  cbn [UI.attractorSize UI.finalTime UI.initialPosition UI.initialVelocity].
  destruct launch_orbit_0_3 as (traj & Heq & Hlen).
  rewrite Heq; cbn [fst]. rewrite Hlen. intros k Hk.
  apply launch_defined; [lra|lra|unfold timeStep; lra|lia].
Defined.

(** ** The attractor and the plane *)

(** X20: with a threshold of at most 0.5 (the default is 0.001) the sphere
    is always drawn with radius exactly 0.5: an attractor size below the
    threshold never reaches the drawing. *)
Theorem sphere_radius_is_half (attractorSize attractorThreshold : R) :
  attractorSize < attractorThreshold -> attractorThreshold <= 0.5 ->
  Canvas.attractorSurface attractorSize attractorThreshold
  = (Canvas.createSphereMatrix 0.5 Canvas.axis_x 32,
     Canvas.createSphereMatrix 0.5 Canvas.axis_y 32,
     Canvas.createSphereMatrix 0.5 Canvas.axis_z 32).
Proof.
  intros Hlt Hthr. unfold Canvas.attractorSurface.
  assert (E : Rltb attractorSize attractorThreshold = true)
    by (apply Rltb_true; exact Hlt).
  rewrite E. rewrite Rmax_left by lra. reflexivity.
Qed.

Lemma sphere_radius_is_half_witness :
  Canvas.attractorSurface 0.00001 0.001
  = (Canvas.createSphereMatrix 0.5 Canvas.axis_x 32,
     Canvas.createSphereMatrix 0.5 Canvas.axis_y 32,
     Canvas.createSphereMatrix 0.5 Canvas.axis_z 32).
Proof.
  apply (sphere_radius_is_half 0.00001 0.001); lra.
Defined.

(** X21: the surface drawn as the plane z = 0 is degenerate: its four
    corners all are [(rangeSize, rangeSize, 0)], because the lower ends of
    the ranges are negated once more. *)
Theorem plane_surface_is_one_point (rangeSize : R) :
  Canvas.planeSurface rangeSize
  = ([[rangeSize; rangeSize]; [rangeSize; rangeSize]],
     [[rangeSize; rangeSize]; [rangeSize; rangeSize]],
     [[0; 0]; [0; 0]]).
Proof.
  unfold Canvas.planeSurface. cbv zeta. rewrite Ropp_involutive. reflexivity.
Qed.

(** ** The energy label and the range *)

(** X22: the label and the canvas split the energies differently: the
    label reads Bound for every energy that is not positive, the canvas
    uses the fixed range 20 for every energy that is not negative.  At
    energy 0, which every fallback result has, the orbit is labelled Bound
    and drawn with the range of unbound orbits. *)
Theorem label_and_range_at_zero (finalTime : R) (p0 v0 : Vec3)
    (attractorRadius : R) (data : Arr Vec3) (energy : R) :
  (UI.energyLabel (Some energy) = UI.Bound <-> energy <= 0) /\
  (0 <= energy -> Canvas.rangeSize data energy = Some 20) /\
  (calculateOrbit finalTime p0 v0 attractorRadius = fallback ->
   UI.energyLabel
     (Some (snd (calculateOrbit finalTime p0 v0 attractorRadius))) = UI.Bound
   /\
   Canvas.rangeSize (fst (calculateOrbit finalTime p0 v0 attractorRadius))
     (snd (calculateOrbit finalTime p0 v0 attractorRadius)) = Some 20).
Proof.
  assert (Hrange : forall d e, 0 <= e -> Canvas.rangeSize d e = Some 20).
  { intros d e He. unfold Canvas.rangeSize. cbv zeta.
    assert (E : Rltb e 0 = false) by (apply Rltb_false; lra).
    rewrite E. reflexivity. }
  assert (Hlabel : forall e, UI.energyLabel (Some e) = UI.Bound <-> e <= 0).
  { intros e. unfold UI.energyLabel. destruct (Rltb 0 e) eqn:E.
    - apply Rltb_true in E. split; [discriminate|lra].
    - apply Rltb_false in E. split; [lra|reflexivity]. }
  split; [apply Hlabel|]. split; [apply Hrange|].
  intros ->. unfold fallback; cbn [fst snd]. split.
  - apply Hlabel. lra.
  - apply Hrange. lra.
Qed.
